(** * Transformer-CNN forward pass and layer-wise relevance propagation

    A shallow embedding of [ochem.py] (forward pass of the Transformer-CNN
    QSAR model and the LRP backward pass that explains its prediction).

    numpy arrays are embedded as index functions: a 1-D array is a function
    [nat -> A], a 2-D array a function [nat -> nat -> A]; the shape that
    numpy carries with the array is passed next to it wherever the source
    reads [x.shape].  Loops that assign into an array are folds of updates
    over [range].

    The scalar arithmetic of numpy is an interface, [Scalar], with three
    instances:
    - the real numbers, the ideal arithmetic that the float operations
      round; a division by zero has no meaning there, so a property stated
      over the reals carries, as hypotheses, that the divisors it meets are
      not zero, and it says nothing of rounding;
    - the real numbers with the special values of IEEE 754 (signed zeros,
      infinities, NaN), used where a division by zero or a NaN matters:
      exact on finite values, so without rounding and overflow;
    - the binary64 floats themselves, for the operations IEEE 754 defines
      (the elementary functions of the C library are parameters), with the
      rounding to binary32 of a store into a float32 array.

    Where the source fixes the type of an array ([dtype=np.float32]), a
    store into it is [sf32]; an array whose type comes with the pickled
    weights (as that of [np.zeros_like(l_prev)] does) is kept in the
    arithmetic of the instance. *)

From Stdlib Require Import Reals Lra List String Ascii ZArith Arith Lia Bool.
From Stdlib Require Import FunctionalExtensionality.
From Stdlib Require Floats.
Import ListNotations.

(** ** Scalars *)

(** The operations of numpy that the source uses on scalars.  [ofZ] is the
    conversion of a Python integer; [lit_1em32] is the literal [1e-32],
    which is not the quotient of two numbers a float holds exactly and is
    therefore part of the interface; [spow10000 y] is
    [np.power(10000.0, y)], the only power the source takes; [sf32] is the
    store of a value into an array of [dtype=np.float32]. *)
Class Scalar (A : Type) : Type := {
  ofZ : Z -> A;
  lit_1em32 : A;
  sadd : A -> A -> A;
  ssub : A -> A -> A;
  smul : A -> A -> A;
  sdiv : A -> A -> A;
  sneg : A -> A;
  sexp : A -> A;
  ssqrt : A -> A;
  ssin : A -> A;
  scos : A -> A;
  spow10000 : A -> A;
  sltb : A -> A -> bool;
  seqb : A -> A -> bool;
  sisnan : A -> bool;
  sf32 : A -> A
}.

Declare Scope num_scope.
Delimit Scope num_scope with num.
Infix "[+]" := sadd (at level 50, left associativity) : num_scope.
Infix "[-]" := ssub (at level 50, left associativity) : num_scope.
Infix "[*]" := smul (at level 40, left associativity) : num_scope.
Infix "[/]" := sdiv (at level 40, left associativity) : num_scope.
Local Open Scope num_scope.

(** [for i in range(n): st = body i st] *)
Definition for_range {S : Type} (n : nat) (body : nat -> S -> S) (init : S) : S :=
  fold_left (fun st i => body i st) (seq 0 n) init.

(** numpy arrays of rank 1, 2 and 3 as index functions *)
Definition vec (A : Type) : Type := nat -> A.
Definition mat (A : Type) : Type := nat -> nat -> A.
Definition ten3 (A : Type) : Type := nat -> nat -> nat -> A.

Section Arrays.
Context {A : Type} `{Scalar A}.

Definition zero : A := ofZ 0.
Definition one : A := ofZ 1.
(** the literals [1.0e32] and [1e-6] of the source: the float nearest to
    an integer, and the correctly rounded quotient of two integers that
    floats hold exactly *)
Definition lit_1e32 : A := ofZ 100000000000000000000000000000000.
Definition lit_1em6 : A := one [/] ofZ 1000000.

(** [np.zeros] *)
Definition zeros : vec A := fun _ => zero.
Definition zeros2 : mat A := fun _ _ => zero.

(** [np.sum] of a 1-D array of length [n], summed from index 0 upwards *)
Fixpoint sumn (n : nat) (f : vec A) : A :=
  match n with
  | O => zero
  | S k => sumn k f [+] f k
  end.

(** [np.sum] of a 2-D array of shape [(n, m)] *)
Definition sum2 (n m : nat) (a : mat A) : A :=
  sumn n (fun i => sumn m (a i)).

(** [np.dot(x, w)] for [x] of shape [(p,)] and [w] of shape [(p, m)] *)
Definition dot (p : nat) (x : vec A) (w : mat A) : vec A :=
  fun j => sumn p (fun k => x k [*] w k j).

(** [a[i] = x], [a[i, j] = x] and [a[i] = row] *)
Definition upd (v : vec A) (i : nat) (x : A) : vec A :=
  fun k => if k =? i then x else v k.
Definition upd2 (a : mat A) (i j : nat) (x : A) : mat A :=
  fun r c => if (r =? i) && (c =? j) then x else a r c.
Definition upd_row (a : mat A) (i : nat) (row : vec A) : mat A :=
  fun r => if r =? i then row else a r.

(** [x[x < 0] = 0] *)
Definition relu (x : A) : A := if sltb x zero then zero else x.

(** ** The relevance rules *)

(** [calcLRPDenseOut(l_previous, w, l_next)], for a layer with a single
    output unit ([w[0]] of shape [(p, 1)]), as in its only call. *)
Definition calcLRPDenseOut (p : nat) (l_previous : vec A) (w0 : mat A) (w1 : vec A)
    (l_next : vec A) : vec A :=
  let zij : mat A := fun o k => w0 k o [*] l_previous k in
  let zij' : mat A := fun o k => zij o k [/] (sumn p (zij o) [+] w1 o) in
  fun k => sumn 1 (fun o => l_next o [*] zij' o k).

(** [calcLRPDenseInner(l_previous, w, l_next)] with [l_previous] of shape
    [(p,)], [w[0]] of shape [(p, m)] and [l_next] of shape [(m,)]. *)
Definition calcLRPDenseInner (p m : nat) (l_previous : vec A) (w0 : mat A)
    (w1 : vec A) (l_next : vec A) : vec A :=
  let q : mat A := fun k _ => l_previous k in
  let zij : mat A := fun k j => q k j [*] w0 k j in
  let z : vec A := fun j => sumn p (fun k => zij k j) [+] w1 j [+] lit_1em32 in
  let zij' : mat A := fun k j => zij k j [/] z j in
  fun k => sumn m (fun j => l_next j [*] zij' k j).

(** [calcLRPAddition(l_first, l_second, l_sum, R)] *)
Definition calcLRPAddition (l_first l_second l_sum R : vec A) : vec A * vec A :=
  let result : vec A := fun i => if seqb (l_sum i) zero then lit_1e32 else l_sum i in
  let f : vec A := fun i => l_first i [/] result i in
  let r_first : vec A := fun i => R i [*] f i in
  let r_second : vec A := fun i => R i [-] r_first i in
  (r_first, r_second).

(** [calcLRPPool(l_embed, inds, R)]: the result has shape
    [(l_embed.shape[0], m)] with [m = inds.shape[0]] and [dtype=np.float32],
    so every relevance is rounded to binary32 when it is stored. *)
Definition calcLRPPool (m : nat) (inds : nat -> nat) (R : vec A) : mat A :=
  for_range m (fun i demax => upd2 demax (inds i) i (sf32 (R i))) zeros2.

(** [calcLRPConv(l_prev, w, l_out)] with [l_prev] of shape [(n, p)] *)
Definition calcLRPConv (n p m : nat) (l_prev : mat A) (w0 : mat A) (w1 : vec A)
    (l_out : mat A) : mat A :=
  for_range n
    (fun i y => upd_row y i (calcLRPDenseInner p m (l_prev i) w0 w1 (l_out i)))
    zeros2.

(** [np.reshape(w[0], (-1, m))] of a kernel of shape [(stride, c, m)] *)
Definition reshape_kernel (c : nat) (w0 : ten3 A) : mat A :=
  fun r o => w0 (r / c) (r mod c) o.

(** [l_prev[i:i + stride, :].flatten()] *)
Definition window (c : nat) (l_prev : mat A) (i : nat) : vec A :=
  fun r => l_prev (i + r / c) (r mod c).

(** [y[i:i + stride] = y[i:i + stride] + z] with [z] of shape [(stride, c)],
    given flat *)
Definition add_rows (c stride : nat) (y : mat A) (i : nat) (z : vec A) : mat A :=
  fun r k => if (i <=? r) && (r <? i + stride) then y r k [+] z ((r - i) * c + k)
             else y r k.

(** The loop of [calcLRPConvStride]: [l_prev] has shape [(n, c)] and
    [l_out] has [m] columns.  [y = np.zeros_like(l_prev)] has the type of
    the activations [l_prev] and is kept in the arithmetic of the
    instance. *)
Definition conv_stride_loop (n c m : nat) (l_prev : mat A) (w0 : ten3 A)
    (w1 : vec A) (l_out : mat A) (stride : nat) : mat A :=
  let w_ := reshape_kernel c w0 in
  for_range (n - stride - 1)
    (fun i y =>
       let x_ := window c l_prev i in
       let y_ := l_out i in
       let z := calcLRPDenseInner (stride * c) m x_ w_ w1 y_ in
       add_rows c stride y i z)
    zeros2.

(** [calcLRPConvStride(l_prev, w, l_out, stride)]; [l_out] has shape
    [(n_out, m)]. *)
Definition calcLRPConvStride (n c n_out m : nat) (l_prev : mat A) (w0 : ten3 A)
    (w1 : vec A) (l_out : mat A) (stride : nat) : mat A :=
  let y := conv_stride_loop n c m l_prev w0 w1 l_out stride in
  let s := sum2 n c y in
  fun r k => y r k [/] s [*] sum2 n_out m l_out.

End Arrays.


(** ** Constants and vocabulary *)

(** the parameters are the same as for Transformer-CNN model *)
Definition N_HIDDEN : nat := 512.
Definition N_HIDDEN_CNN : nat := 512.
Definition EMBEDDING_SIZE : nat := 64.
Definition KEY_SIZE : nat := EMBEDDING_SIZE.
Definition CONV_OFFSET : nat := 20.

(** [chars]: the Python literal writes the backslash escaped. *)
Definition chars : string :=
  " ^#%()+-./0123456789=@ABCDEFGHIKLMNOPRSTVXYZ[\]abcdefgilmnoprstuy$".
Definition vocab_size : nat := String.length chars.

(** [enumerate] *)
Fixpoint enumerate_from {X : Type} (i : nat) (l : list X) : list (nat * X) :=
  match l with
  | [] => []
  | x :: rest => (i, x) :: enumerate_from (S i) rest
  end.

(** A Python dict with character keys, as an association list whose first
    binding of a key is the current one. *)
Definition dict : Type := list (ascii * nat).
Definition dict_set (m : dict) (k : ascii) (v : nat) : dict := (k, v) :: m.
Fixpoint dict_get (m : dict) (k : ascii) : option nat :=
  match m with
  | [] => None
  | (k', v) :: rest => if Ascii.eqb k k' then Some v else dict_get rest k
  end.

(** [char_to_ix = {ch: i for i, ch in enumerate(chars)}] *)
Definition char_to_ix : dict :=
  fold_left (fun m p => dict_set m (snd p) (fst p))
    (enumerate_from 0 (list_ascii_of_string chars)) [].

(** The loop [for i in range(N): x[i] = char_to_ix[mol[i]]] from position
    [i] on: a character that is no key raises [KeyError] (left). *)
Fixpoint fill_tokens (mol : list ascii) (i : nat) (x : nat -> nat)
    : ascii + (nat -> nat) :=
  match mol with
  | [] => inr x
  | ch :: rest =>
      match dict_get char_to_ix ch with
      | None => inl ch
      | Some ix => fill_tokens rest (S i) (fun k => if k =? i then ix else x k)
      end
  end.

(** [x = np.zeros(NN, np.int32)] followed by the loop *)
Definition tokens (mol : string) : ascii + (nat -> nat) :=
  fill_tokens (list_ascii_of_string mol) 0 (fun _ => 0).

(** One convolution of the CNN stage: filter width, number of channels,
    index of its kernel in the weight store, offset of its pooled channels
    in the concatenated vector, and the label of its check. *)
Record conv_spec : Type := {
  width : nat;
  channels : nat;
  widx : nat;
  offset : nat;
  label : string
}.

Definition conv_strided : list conv_spec :=
  [ {| width := 2; channels := 200; widx := 123; offset := 100; label := "  Conv2:" |};
    {| width := 3; channels := 200; widx := 125; offset := 300; label := "  Conv3:" |};
    {| width := 4; channels := 200; widx := 127; offset := 500; label := "  Conv4:" |};
    {| width := 5; channels := 200; widx := 129; offset := 700; label := "  Conv5:" |};
    {| width := 6; channels := 100; widx := 131; offset := 900; label := "  Conv6:" |};
    {| width := 7; channels := 100; widx := 133; offset := 1000; label := "  Conv7:" |};
    {| width := 8; channels := 100; widx := 135; offset := 1100; label := "  Conv8:" |};
    {| width := 9; channels := 100; widx := 137; offset := 1200; label := "  Conv9:" |};
    {| width := 10; channels := 100; widx := 139; offset := 1300; label := "  Conv10:" |};
    {| width := 15; channels := 160; widx := 141; offset := 1400; label := "  Conv15:" |};
    {| width := 20; channels := 160; widx := 143; offset := 1560; label := "  Conv20:" |} ].

(** Length of the concatenated pooled vector [l_cnn]: the 100 channels of
    the first convolution and those of the strided ones. *)
Definition CNN_WIDTH : nat := 1720.

(** ** The network *)

(** The weight store [d] (the list of tensors of the pickled model):
    [d idx] is the tensor at index [idx], read with three indices; a matrix
    is the slice [d idx 0] and a vector the slice [d idx 0 0]. *)
Definition store (A : Type) : Type := nat -> ten3 A.

(** ** The stored output transform

    [info[2]] is a Python expression kept as a string in the model file;
    line 507 hands it to [eval] and stores the value in [l_out[0]].
    Python's evaluator is not part of the repository, so the expression is
    held here by what [eval] makes of it: a function from the scope it is
    evaluated in to the float that is stored, or to the exception that
    [eval] or the store raises.  The names the expression can read are the
    globals and the locals of [calcQSAR]; each of them is computed from the
    weight store, the string of the molecule and the molecular weight, and
    [result] is the raw output of the network. *)
Inductive eval_result (A : Type) : Type :=
| EvalValue (v : A)
| EvalRaises (exc : string).
Arguments EvalValue {A} v.
Arguments EvalRaises {A} exc.

Record scope (A : Type) : Type := {
  sc_d : store A;
  sc_mol : string;
  sc_MolWt : A;
  sc_result : A
}.
Arguments sc_d {A} s.
Arguments sc_mol {A} s.
Arguments sc_MolWt {A} s.
Arguments sc_result {A} s.
Arguments Build_scope {A} sc_d sc_mol sc_MolWt sc_result.

(** [info = d[0]] of the pickled model: name, task type, output transform
    and unit label. *)
Record info_t (A : Type) : Type := {
  info0 : string;
  info1 : string;
  info2 : scope A -> eval_result A;
  info3 : string
}.
Arguments info0 {A} i.
Arguments info1 {A} i.
Arguments info2 {A} i.
Arguments info3 {A} i.
Arguments Build_info_t {A} info0 info1 info2 info3.

(** What a call of [calcQSAR] ends in: a [KeyError] of the vocabulary
    lookup, an exception of the evaluated expression, the [sys.exit(0)] of
    [LRPCheck] (with the label it prints), the value returned for
    [doLrp == False], or the triple returned after the LRP pass. *)
Inductive outcome (A : Type) : Type :=
| KeyError (ch : ascii)
| EvalError (exc : string)
| NaNExit (lbl : string)
| Prognosis (y : A)
| Explained (y : A) (scores : vec A) (delta : A).
Arguments KeyError {A} ch.
Arguments EvalError {A} exc.
Arguments NaNExit {A} lbl.
Arguments Prognosis {A} y.
Arguments Explained {A} y scores delta.

Section Network.
Context {A : Type} `{Scalar A}.

Definition dmat (d : store A) (idx : nat) : mat A := d idx 0.
Definition dvec (d : store A) (idx : nat) : vec A := d idx 0 0.

(** [np.dot(a, b)] for [a] of shape [(n, p)] *)
Definition matmul (p : nat) (a b : mat A) : mat A :=
  fun i j => sumn p (fun k => a i k [*] b k j).

(** Entry [(j, i)] of the positional encoding of a character position *)
Definition pos_entry (j i : nat) : A :=
  if Nat.even i
  then ssin (ofZ (Z.of_nat (j + 1))
             [/] spow10000 (ofZ (Z.of_nat i) [/] ofZ (Z.of_nat EMBEDDING_SIZE)))
  else scos (ofZ (Z.of_nat (j + 1))
             [/] spow10000 (ofZ (Z.of_nat (i - 1)) [/] ofZ (Z.of_nat EMBEDDING_SIZE))).

(** positional encoding matrix, an array of [dtype=np.float32] *)
Definition pos (N : nat) : mat A :=
  for_range N
    (fun j p =>
       for_range EMBEDDING_SIZE (fun i p' => upd2 p' j i (sf32 (pos_entry j i))) p)
    zeros2.

(** [left_mask = np.zeros((NN, NN)); left_mask[:, :N] = 1] *)
Definition left_mask (N : nat) : mat A :=
  fun _ j => if j <? N then one else zero.

(** [for i in range(NN): smiles_embed[i] = embed[x[i]] + pos[i]], stored
    into [np.zeros_like(pos)], an array of [dtype=np.float32] *)
Definition smiles_embed (d : store A) (NN N : nat) (x : nat -> nat) : mat A :=
  let embed := dmat d 0 in
  let p := pos N in
  for_range NN
    (fun i se => upd_row se i (fun c => sf32 (embed (x i) c [+] p i c)))
    zeros2.

(** The attention weights of one head: scaled scores, exponential, mask,
    and the loop that divides every row by its sum. *)
Definition attention_weights (NN N : nat) (X K Q : mat A) : mat A :=
  let q := matmul EMBEDDING_SIZE X Q in
  let k := matmul EMBEDDING_SIZE X K in
  let kT : mat A := fun i j => k j i in
  let a : mat A :=
    fun i j => matmul KEY_SIZE q kT i j [/] ssqrt (ofZ (Z.of_nat EMBEDDING_SIZE)) in
  let a : mat A := fun i j => sexp (a i j) [*] left_mask N i j in
  for_range NN (fun i a' => upd_row a' i (fun j => a' i j [/] sumn NN (a' i))) a.

(** One pass of the loop [for block in range(10)]: [np.dot(a, v)] *)
Definition attention_head (NN N : nat) (X K V Q : mat A) : mat A :=
  let v := matmul EMBEDDING_SIZE X V in
  matmul NN (attention_weights NN N X K Q) v.

(** [np.concatenate(sa, axis=1)] of matrices with [w] columns each *)
Definition concat_cols (w : nat) (sa : list (mat A)) : mat A :=
  fun i j => nth (j / w) sa zeros2 i (j mod w).

(** The ten heads whose matrices start at index [base] of the store *)
Definition self_attention (d : store A) (base NN N : nat) (X : mat A) : mat A :=
  concat_cols KEY_SIZE
    (map (fun block =>
            attention_head NN N X (dmat d (base + 3 * block))
              (dmat d (base + 1 + 3 * block)) (dmat d (base + 2 + 3 * block)))
         (seq 0 10)).

(** [np.mean] and [np.std] over a row of length [n] *)
Definition np_mean (n : nat) (v : vec A) : A :=
  sumn n v [/] ofZ (Z.of_nat n).
Definition np_std (n : nat) (v : vec A) : A :=
  let m := np_mean n v in
  ssqrt (np_mean n (fun i => (v i [-] m) [*] (v i [-] m))).

(** [gamma * (l - mean) / (std + 1e-6) + beta] *)
Definition layer_norm (gamma beta : vec A) (l : mat A) : mat A :=
  fun i c =>
    gamma c [*] (l i c [-] np_mean EMBEDDING_SIZE (l i))
    [/] (np_std EMBEDDING_SIZE (l i) [+] lit_1em6) [+] beta c.

(** One encoder block; its tensors are [d[o + 1] .. d[o + 40]] with
    [o = 0, 40, 80] for the three blocks the source writes out. *)
Definition encoder_block (d : store A) (o NN N : nat) (l_embed : mat A) : mat A :=
  let sa := self_attention d (o + 1) NN N l_embed in
  let l_dense : mat A :=
    fun i c => dot (10 * KEY_SIZE) (sa i) (dmat d (o + 31)) c [+] dvec d (o + 32) c in
  let l_add : mat A := fun i c => l_dense i c [+] l_embed i c in
  let l_norm := layer_norm (dvec d (o + 33)) (dvec d (o + 34)) l_add in
  let l_c1 : mat A :=
    fun i c => relu (dot EMBEDDING_SIZE (l_norm i) (d (o + 35) 0) c [+] dvec d (o + 36) c) in
  let l_c2 : mat A :=
    fun i c => dot N_HIDDEN (l_c1 i) (d (o + 37) 0) c [+] dvec d (o + 38) c in
  let l_ff : mat A := fun i c => l_norm i c [+] l_c2 i c in
  layer_norm (dvec d (o + 39)) (dvec d (o + 40)) l_ff.

(** The encoder output ([l_encoder_out]) from the padded token vector *)
Definition encoder (d : store A) (NN N : nat) (x : nat -> nat) : mat A :=
  encoder_block d 80 NN N
    (encoder_block d 40 NN N
       (encoder_block d 0 NN N (smiles_embed d NN N x))).

(** [np.max(a, b)] of two scalars and whether [np.argmax] moves on to a
    later entry: a NaN wins and stays. *)
Definition np_max2 (a b : A) : A :=
  if sisnan a then a else if sisnan b then b else if sltb a b then b else a.
Definition argmax_moves (cur new : A) : bool :=
  if sisnan cur then false else sisnan new || sltb cur new.

(** [np.max] and [np.argmax] over the entries [0 .. k] *)
Fixpoint max_upto (k : nat) (f : vec A) : A :=
  match k with
  | O => f 0
  | S k' => np_max2 (max_upto k' f) (f (S k'))
  end.
Fixpoint argmax_upto (k : nat) (f : vec A) : nat :=
  match k with
  | O => 0
  | S k' => let m := argmax_upto k' f in
            if argmax_moves (f m) (f (S k')) then S k' else m
  end.

(** [np.max(lc, axis=0)] and [np.argmax(lc, axis=0)] of [lc] with [n] rows *)
Definition max_axis0 (n : nat) (lc : mat A) : vec A :=
  fun o => max_upto (n - 1) (fun i => lc i o).
Definition argmax_axis0 (n : nat) (lc : mat A) : nat -> nat :=
  fun o => argmax_upto (n - 1) (fun i => lc i o).

(** 1 convolution: [lc_1 = np.dot(l_embed, d[121]) + d[122]] with ReLU *)
Definition lc_1 (d : store A) (l_embed : mat A) : mat A :=
  fun i o => relu (dot EMBEDDING_SIZE (l_embed i) (dmat d 121) o [+] dvec d 122 o).

(** The usual valid convolution of width [width s]: the loop over the
    [NN - (width - 1)] windows, which stores its rows into an array of
    [dtype=np.float32]. *)
Definition lc_k (d : store A) (NN : nat) (l_embed : mat A) (s : conv_spec) : mat A :=
  let w := reshape_kernel EMBEDDING_SIZE (d (widx s)) in
  for_range (NN - (width s - 1))
    (fun i lc =>
       let x_ := window EMBEDDING_SIZE l_embed i in
       upd_row lc i (fun o => sf32 (relu (dot (width s * EMBEDDING_SIZE) x_ w o
                                          [+] dvec d (widx s + 1) o))))
    zeros2.

Definition max_1 (d : store A) (NN : nat) (l_embed : mat A) : nat -> nat :=
  argmax_axis0 NN (lc_1 d l_embed).
Definition max_k (d : store A) (NN : nat) (l_embed : mat A) (s : conv_spec) : nat -> nat :=
  argmax_axis0 (NN - (width s - 1)) (lc_k d NN l_embed s).

(** [np.concatenate] of 1-D arrays given with their lengths *)
Fixpoint concat_vecs (l : list (nat * vec A)) : vec A :=
  match l with
  | [] => zeros
  | (n, v) :: rest => fun j => if j <? n then v j else concat_vecs rest (j - n)
  end.

(** concatenate: the pooled outputs of the twelve convolutions *)
Definition l_cnn (d : store A) (NN : nat) (l_embed : mat A) : vec A :=
  concat_vecs
    ((100, max_axis0 NN (lc_1 d l_embed))
     :: map (fun s => (channels s,
                       max_axis0 (NN - (width s - 1)) (lc_k d NN l_embed s)))
            conv_strided).

Definition l_dense (d : store A) (cnn : vec A) : vec A :=
  fun c => relu (dot CNN_WIDTH cnn (dmat d 145) c [+] dvec d 146 c).

(** highway *)
Definition transform_gate (d : store A) (dense : vec A) : vec A :=
  fun c => one [/] (one [+] sexp (sneg (dot N_HIDDEN_CNN dense (dmat d 147) c)
                                  [-] dvec d 148 c)).
Definition carry_gate (d : store A) (dense : vec A) : vec A :=
  fun c => one [-] transform_gate d dense c.
Definition transformed_data (d : store A) (dense : vec A) : vec A :=
  fun c => relu (dot N_HIDDEN_CNN dense (dmat d 149) c [+] dvec d 150 c).
Definition transformed_gated (d : store A) (dense : vec A) : vec A :=
  fun c => transform_gate d dense c [*] transformed_data d dense c.
Definition identity_gated (d : store A) (dense : vec A) : vec A :=
  fun c => carry_gate d dense c [*] dense c.
Definition l_highway (d : store A) (dense : vec A) : vec A :=
  fun c => transformed_gated d dense c [+] identity_gated d dense c.

(** the last layer, with the sigmoid for classification *)
Definition l_out (d : store A) (info : info_t A) (highway : vec A) : vec A :=
  let out : vec A := fun c => dot N_HIDDEN_CNN highway (dmat d 151) c [+] dvec d 152 c in
  if String.eqb (info1 info) "classification"
  then fun c => one [/] (one [+] sexp (sneg (out c)))
  else out.

(** The forward pass from the padded token vector [x] to [result], the
    value of [l_out[0]] before the output transform. *)
Definition forward_result (d : store A) (info : info_t A) (NN N : nat)
    (x : nat -> nat) : A :=
  let l_embed := encoder d NN N x in
  l_out d info (l_highway d (l_dense d (l_cnn d NN l_embed))) 0.

(** ** The relevance pass *)

(** [LRPCheck(label, x, val)]: [s] is the sum of [x]; a NaN makes it print
    the label and call [sys.exit(0)], returned here as [Some label].  The
    rounding [round(s, 7)] keeps a NaN a NaN and otherwise only feeds the
    printed line, which is not modelled. *)
Definition LRPCheck (lbl : string) (s : A) : option string :=
  if sisnan s then Some lbl else None.

(** The sum [LRPCheck] forms when [x] is a list of arrays, from the sums of
    the arrays: [s = 0.0; for q in x: s = s + np.sum(q)]. *)
Definition sum_list (xs : list A) : A := fold_left sadd xs zero.

(** The first of a sequence of checks that exits *)
Fixpoint first_exit (cs : list (option string)) : option string :=
  match cs with
  | [] => None
  | Some l :: _ => Some l
  | None :: rest => first_exit rest
  end.

(** [R[off:]] *)
Definition slice_from (off : nat) (R : vec A) : vec A := fun o => R (off + o).

Definition R_highway (d : store A) (highway out : vec A) : vec A :=
  calcLRPDenseOut N_HIDDEN_CNN highway (dmat d 151) (dvec d 152) out.

Definition R_identity (d : store A) (dense R_hw : vec A) : vec A :=
  fst (calcLRPAddition (identity_gated d dense) (transformed_gated d dense)
         (l_highway d dense) R_hw).
Definition R_transformed_gated (d : store A) (dense R_hw : vec A) : vec A :=
  snd (calcLRPAddition (identity_gated d dense) (transformed_gated d dense)
         (l_highway d dense) R_hw).

Definition R_dense_high3 (d : store A) (dense R_hw : vec A) : vec A :=
  calcLRPDenseInner N_HIDDEN_CNN N_HIDDEN_CNN dense (dmat d 149) (dvec d 150)
    (R_transformed_gated d dense R_hw).

Definition R_input_highway (d : store A) (dense R_hw : vec A) : vec A :=
  fun c => R_identity d dense R_hw c [+] R_dense_high3 d dense R_hw c.

(** [R_cnn = calcLRPDenseInner(l_cnn, [d[145], d[146]], R_input_highway)] *)
Definition R_cnn_flat (d : store A) (cnn R_in : vec A) : vec A :=
  calcLRPDenseInner CNN_WIDTH N_HIDDEN_CNN cnn (dmat d 145) (dvec d 146) R_in.

(** Increase the dimension pulling the relevance to a maximum descriptor. *)
Definition d_1 (d : store A) (NN : nat) (l_embed : mat A) (R : vec A) : mat A :=
  calcLRPPool 100 (max_1 d NN l_embed) (slice_from 0 R).
Definition d_k (d : store A) (NN : nat) (l_embed : mat A) (R : vec A)
    (s : conv_spec) : mat A :=
  calcLRPPool (channels s) (max_k d NN l_embed s) (slice_from (offset s) R).

(** Char-CNN block *)
Definition R_cnn_1 (d : store A) (NN : nat) (l_embed : mat A) (R : vec A) : mat A :=
  calcLRPConv NN EMBEDDING_SIZE 100 l_embed (dmat d 121) (dvec d 122)
    (d_1 d NN l_embed R).
Definition R_cnn_k (d : store A) (NN : nat) (l_embed : mat A) (R : vec A)
    (s : conv_spec) : mat A :=
  calcLRPConvStride NN EMBEDDING_SIZE NN (channels s) l_embed (d (widx s))
    (dvec d (widx s + 1)) (d_k d NN l_embed R s) (width s).

(** [R_cnn = R_cnn_1 + R_cnn_2 + ... + R_cnn_20] *)
Definition R_cnn (d : store A) (NN : nat) (l_embed : mat A) (R : vec A) : mat A :=
  fold_left (fun acc s => fun i c => acc i c [+] R_cnn_k d NN l_embed R s i c)
    conv_strided (R_cnn_1 d NN l_embed R).

(** The part of [calcQSAR] after [doLrp] is tested: the relevance pass
    over the activations of the forward pass, with its checks in order. *)
Definition explain (d : store A) (NN : nat) (l_embed : mat A)
    (cnn dense highway out : vec A) : outcome A :=
  let R_hw := R_highway d highway out in
  let R_in := R_input_highway d dense R_hw in
  let R := R_cnn_flat d cnn R_in in
  let R_all := R_cnn d NN l_embed R in
  let checks :=
    [ LRPCheck "HighWay Output:" (sumn N_HIDDEN_CNN R_hw);
      LRPCheck "Input HighWay:" (sumn N_HIDDEN_CNN R_in);
      LRPCheck "DeMaxPool:"
        (sum_list (sum2 NN 100 (d_1 d NN l_embed R)
                   :: map (fun s => sum2 NN (channels s) (d_k d NN l_embed R s))
                        conv_strided));
      LRPCheck "  Conv1:" (sum2 NN EMBEDDING_SIZE (R_cnn_1 d NN l_embed R)) ]
    ++ map (fun s => LRPCheck (label s)
                       (sum2 NN EMBEDDING_SIZE (R_cnn_k d NN l_embed R s)))
         conv_strided
    ++ [ LRPCheck "Deconvolution:" (sum2 NN EMBEDDING_SIZE R_all) ] in
  match first_exit checks with
  | Some lbl => NaNExit lbl
  | None =>
      let scores : vec A := fun i => sumn EMBEDDING_SIZE (R_all i) in
      Explained (out 0) scores (sumn 1 out [-] sum2 NN EMBEDDING_SIZE R_all)
  end.

(** [calcQSAR(ch, atom, MolWt, doLrp)], from the SMILES string [mol] that
    RDKit's [MolToSmiles] returns for the molecule rooted at the atom. *)
Definition calcQSAR (d : store A) (info : info_t A) (mol : string) (MolWt : A)
    (doLrp : bool) : outcome A :=
  let N := String.length mol in
  let NN := N + CONV_OFFSET in
  match tokens mol with
  | inl ch => KeyError ch
  | inr x =>
      let l_embed := encoder d NN N x in
      let cnn := l_cnn d NN l_embed in
      let dense := l_dense d cnn in
      let highway := l_highway d dense in
      let out := l_out d info highway in
      let result := out 0 in
      match info2 info (Build_scope d mol MolWt result) with
      | EvalRaises exc => EvalError exc
      | EvalValue y =>
          let out := upd out 0 y in
          if negb doLrp then Prognosis (out 0)
          else explain d NN l_embed cnn dense highway out
      end
  end.

End Network.

(** ** The three arithmetics *)

(** Ideal arithmetic: the real numbers.  No value is a NaN, nothing is
    rounded ([sf32] is the identity), and [x / 0] is the [0] that the
    division of [R] gives; a statement over this instance is about the
    source only where the divisors are not zero. *)
#[export] Instance Rscalar : Scalar R := {|
  ofZ := IZR;
  lit_1em32 := (1 / 100000000000000000000000000000000)%R;
  sadd := Rplus;
  ssub := Rminus;
  smul := Rmult;
  sdiv := Rdiv;
  sneg := Ropp;
  sexp := exp;
  ssqrt := sqrt;
  ssin := sin;
  scos := cos;
  spow10000 := Rpower 10000;
  sltb := fun x y => if Rlt_dec x y then true else false;
  seqb := fun x y => if Req_dec_T x y then true else false;
  sisnan := fun _ => false;
  sf32 := fun x => x
|}.

(** The real numbers with the special values of IEEE 754: [Fin 0] is the
    zero [+0.0], [NegZero] is [-0.0], [PInf] and [NInf] are the infinities.
    The operations follow the standard on the special values (a division
    of a non-zero number by a zero is an infinity, [0 / 0], [inf - inf],
    [0 * inf] and the root of a negative number are NaN, a NaN operand
    gives NaN, a comparison with a NaN is false) and are exact on finite
    values: there is no rounding, no overflow and no underflow. *)
Inductive xreal : Type :=
| Fin (r : R)
| NegZero
| PInf
| NInf
| NaN.

(** sign bit, value of a finite number, and the tests *)
Definition xsign (a : xreal) : bool :=
  match a with
  | Fin r => if Rlt_dec r 0 then true else false
  | NegZero | NInf => true
  | PInf | NaN => false
  end.
Definition xval (a : xreal) : R := match a with Fin r => r | _ => 0%R end.
Definition xis_zero (a : xreal) : bool :=
  match a with
  | Fin r => if Req_dec_T r 0 then true else false
  | NegZero => true
  | _ => false
  end.
Definition xis_inf (a : xreal) : bool :=
  match a with PInf | NInf => true | _ => false end.
Definition xisnan (a : xreal) : bool :=
  match a with NaN => true | _ => false end.

(** the zero and the infinity of sign [s]; the finite result [r] of a
    product or a quotient whose sign is [s] *)
Definition xzero (s : bool) : xreal := if s then NegZero else Fin 0.
Definition xinf (s : bool) : xreal := if s then NInf else PInf.
Definition xsigned (s : bool) (r : R) : xreal :=
  if Req_dec_T r 0 then xzero s else Fin r.

Definition xadd (a b : xreal) : xreal :=
  match a, b with
  | NaN, _ | _, NaN => NaN
  | PInf, NInf | NInf, PInf => NaN
  | PInf, _ | _, PInf => PInf
  | NInf, _ | _, NInf => NInf
  | NegZero, NegZero => NegZero
  | _, _ => Fin (xval a + xval b)
  end.
Definition xneg (a : xreal) : xreal :=
  match a with
  | Fin r => if Req_dec_T r 0 then NegZero else Fin (- r)
  | NegZero => Fin 0
  | PInf => NInf
  | NInf => PInf
  | NaN => NaN
  end.
Definition xsub (a b : xreal) : xreal := xadd a (xneg b).
Definition xmul (a b : xreal) : xreal :=
  if xisnan a || xisnan b then NaN
  else if (xis_inf a && xis_zero b) || (xis_zero a && xis_inf b) then NaN
  else
    let s := xorb (xsign a) (xsign b) in
    if xis_inf a || xis_inf b then xinf s
    else xsigned s (xval a * xval b).
Definition xdiv (a b : xreal) : xreal :=
  if xisnan a || xisnan b then NaN
  else if (xis_inf a && xis_inf b) || (xis_zero a && xis_zero b) then NaN
  else
    let s := xorb (xsign a) (xsign b) in
    if xis_inf a then xinf s
    else if xis_inf b then xzero s
    else if xis_zero b then xinf s
    else xsigned s (xval a / xval b).
Definition xexp (a : xreal) : xreal :=
  match a with
  | Fin r => Fin (exp r)
  | NegZero => Fin 1
  | PInf => PInf
  | NInf => Fin 0
  | NaN => NaN
  end.
Definition xsqrt (a : xreal) : xreal :=
  match a with
  | Fin r => if Rlt_dec r 0 then NaN else Fin (sqrt r)
  | NegZero => NegZero
  | PInf => PInf
  | NInf | NaN => NaN
  end.
Definition xsin (a : xreal) : xreal :=
  match a with
  | Fin r => Fin (sin r)
  | NegZero => NegZero
  | PInf | NInf | NaN => NaN
  end.
Definition xcos (a : xreal) : xreal :=
  match a with
  | Fin r => Fin (cos r)
  | NegZero => Fin 1
  | PInf | NInf | NaN => NaN
  end.
Definition xpow10000 (a : xreal) : xreal :=
  match a with
  | Fin r => Fin (Rpower 10000 r)
  | NegZero => Fin 1
  | PInf => PInf
  | NInf => Fin 0
  | NaN => NaN
  end.
Definition xltb (a b : xreal) : bool :=
  match a, b with
  | NaN, _ | _, NaN => false
  | _, NInf => false
  | NInf, _ => true
  | PInf, _ => false
  | _, PInf => true
  | _, _ => if Rlt_dec (xval a) (xval b) then true else false
  end.
Definition xeqb (a b : xreal) : bool :=
  match a, b with
  | NaN, _ | _, NaN => false
  | PInf, PInf | NInf, NInf => true
  | PInf, _ | _, PInf | NInf, _ | _, NInf => false
  | _, _ => if Req_dec_T (xval a) (xval b) then true else false
  end.

#[export] Instance Xscalar : Scalar xreal := {|
  ofZ := fun z => Fin (IZR z);
  lit_1em32 := Fin (1 / 100000000000000000000000000000000)%R;
  sadd := xadd;
  ssub := xsub;
  smul := xmul;
  sdiv := xdiv;
  sneg := xneg;
  sexp := xexp;
  ssqrt := xsqrt;
  ssin := xsin;
  scos := xcos;
  spow10000 := xpow10000;
  sltb := xltb;
  seqb := xeqb;
  sisnan := xisnan;
  sf32 := fun x => x
|}.

(** The binary64 floats.  Addition, subtraction, multiplication, division,
    negation, square root and the comparisons are those of IEEE 754 with
    rounding to nearest even, which numpy uses for [float64]; the
    elementary functions are those of the C library, which the standard
    does not fix, and are parameters. *)
Record Libm : Type := {
  lm_exp : PrimFloat.float -> PrimFloat.float;
  lm_sin : PrimFloat.float -> PrimFloat.float;
  lm_cos : PrimFloat.float -> PrimFloat.float;
  lm_pow10000 : PrimFloat.float -> PrimFloat.float
}.

(** The float nearest to an integer *)
Definition float_of_Z (z : Z) : PrimFloat.float :=
  FloatOps.SF2Prim
    (SpecFloat.binary_normalize FloatOps.prec FloatOps.emax z 0 false).

(** The literal [1e-32]: the float nearest to it,
    [0x1.9f623d5a8a733p-107] *)
Definition float_1em32 : PrimFloat.float :=
  FloatOps.SF2Prim (SpecFloat.S754_finite false 7307508186654515 (-159)).

(** The store of a float64 into a float32 array: rounding to nearest even
    in binary32 (24 bits of precision, exponents up to 128), with overflow
    to an infinity; the value is then read back as a float64. *)
Definition float_to_f32 (x : PrimFloat.float) : PrimFloat.float :=
  match FloatOps.Prim2SF x with
  | SpecFloat.S754_finite s m e =>
      FloatOps.SF2Prim (SpecFloat.binary_round 24 128 s m e)
  | _ => x
  end.

Definition Fscalar (lm : Libm) : Scalar PrimFloat.float := {|
  ofZ := float_of_Z;
  lit_1em32 := float_1em32;
  sadd := PrimFloat.add;
  ssub := PrimFloat.sub;
  smul := PrimFloat.mul;
  sdiv := PrimFloat.div;
  sneg := PrimFloat.opp;
  sexp := lm_exp lm;
  ssqrt := PrimFloat.sqrt;
  ssin := lm_sin lm;
  scos := lm_cos lm;
  spow10000 := lm_pow10000 lm;
  sltb := PrimFloat.ltb;
  seqb := PrimFloat.eqb;
  sisnan := PrimFloat.is_nan;
  sf32 := float_to_f32
|}.

(** ** Small inputs

    A strided convolution over four positions with one channel: the
    activations and the kernel are all ones, the bias is zero, and the
    incoming relevance is one at chosen rows and zero elsewhere. *)
Section Toy.
Context {A : Type} `{Scalar A}.

Definition toy_ones : mat A := fun _ _ => one.
Definition toy_kernel : ten3 A := fun _ _ _ => one.
Definition toy_bias : vec A := fun _ => zero.
(** relevance one at row [row] *)
Definition toy_rel (row : nat) : mat A :=
  fun r _ => if r =? row then one else zero.
(** relevance one at the rows below [row] *)
Definition toy_rel_below (row : nat) : mat A :=
  fun r _ => if r <? row then one else zero.

End Toy.

(** ** Weight stores and metadata used as concrete inputs *)

(** What [eval] makes of the expressions [result], [result * result] and
    [MolWt]: each is a name of the scope or the product of one with
    itself. *)
Definition expr_result {A : Type} : scope A -> eval_result A :=
  fun sc => EvalValue (sc_result sc).

(** A regression model whose stored output transform is the expression
    [e]. *)
Definition info_with {A : Type} (e : scope A -> eval_result A) : info_t A :=
  {| info0 := "logS"; info1 := "regression"; info2 := e; info3 := "log(mol/L)" |}.

(** The filter width of the convolution whose kernel is at index [idx] *)
Definition kernel_width (idx : nat) : option nat :=
  if idx =? 121 then Some 1
  else option_map width (find (fun s => widx s =? idx) conv_strided).

(** A store with constant tensors: the last layer normalisation has scale
    0 and shift 1 (so the encoder output is 1 everywhere), the kernel of a
    convolution of width [k] is [1 / (64 k)] with zero bias, the fusion
    layer [d[145]] is [1 / 1720] with zero bias, the highway layers are
    zero, the output layer [d[151]] is [2 / 512] and its bias [d[152]] is
    [b]; every other tensor is zero. *)
Definition store_const (b : R) : store R :=
  fun idx _ _ _ =>
    match kernel_width idx with
    | Some k => (1 / INR (k * EMBEDDING_SIZE))%R
    | None =>
        if idx =? 120 then 1%R
        else if idx =? 145 then (1 / INR CNN_WIDTH)%R
        else if idx =? 151 then (2 / INR N_HIDDEN_CNN)%R
        else if idx =? 152 then b
        else 0%R
    end.







(** The relevance of every entry of the concatenated pooled vector on the
    constant store *)
Definition rho : R := (1 / INR CNN_WIDTH / (1 + lit_1em32))%R.

(** Length of a concatenation of 1-D arrays *)
Definition total_length {A : Type} (l : list (nat * vec A)) : nat :=
  fold_right (fun p acc => fst p + acc) 0 l.

(** The last of the strided convolutions, of width 20 *)
Definition conv_20 : conv_spec :=
  {| width := 20; channels := 160; widx := 143; offset := 1560; label := "  Conv20:" |}.

(** The attention weights before the rows are normalised *)
Definition masked_scores (N : nat) (X K Q : mat R) : mat R :=
  fun i j =>
    (exp (matmul KEY_SIZE (matmul EMBEDDING_SIZE X Q)
            (fun t k => matmul EMBEDDING_SIZE X K k t) i j
          / sqrt (IZR (Z.of_nat EMBEDDING_SIZE)))
     * left_mask N i j)%R.


(** The slices of consecutive convolutions follow one another from the
    offset [a] on. *)
Fixpoint consecutive (a : nat) (l : list conv_spec) : Prop :=
  match l with
  | [] => True
  | s :: rest => offset s = a /\ consecutive (a + channels s) rest
  end.

(** ** The main script: one bar and one colour per token *)

Section Main.
Context {A : Type} `{Scalar A}.

(** [np.min] of two scalars and over the entries [0 .. k]; like [np.max],
    a NaN wins and stays. *)
Definition np_min2 (a b : A) : A :=
  if sisnan a then a else if sisnan b then b else if sltb b a then b else a.
Fixpoint min_upto (k : nat) (f : vec A) : A :=
  match k with
  | O => f 0%nat
  | S k' => np_min2 (min_upto k' f) (f (S k'))
  end.

(** the literal [0.66] *)
Definition lit_066 : A := ofZ 66 [/] ofZ 100.

(** An RGB triple, and [triple[i] = v] on it.  The script only writes the
    indices [1 - p] and [abs(0 - p)] with [p] 0 or 1; any other index
    would be an IndexError and is not reached. *)
Definition colour : Type := (A * A * A)%type.
Definition set_triple (t : colour) (i : nat) (v : A) : colour :=
  match t, i with
  | (_, g, b), 0%nat => (v, g, b)
  | (r, _, b), 1%nat => (r, v, b)
  | (r, g, _), 2%nat => (r, g, v)
  | _, _ => t
  end.

(** The colour of a matched atom with impact [v]. *)
Definition colour_of (p : nat) (y_min y_max v : A) : colour :=
  if sltb (y_max [/] ofZ 10) v then
    set_triple (zero, zero, zero) (1 - p) (one [-] lit_066 [*] (v [/] y_max))
  else if sltb v (y_min [/] ofZ 10) then
    set_triple (zero, zero, zero) p (one [-] lit_066 [*] (v [/] y_min))
  else (one, one, one).

(** The state of the loop over the tokens: the atom counter [k], the lists
    [y_vals] and [char_colors], and the dictionary [mol_cols]. *)
Record plot_state : Type := {
  k_atom : nat;
  y_vals : list A;
  char_colors : list colour;
  mol_cols : nat -> option colour
}.

(** One pass of the loop body for the token [s]; [None] is the KeyError of
    [atoms[k]]. *)
Definition plot_step (atoms : list string) (impacts : vec A) (p : nat)
  (y_min y_max : A) (s : string) (st : plot_state) : option plot_state :=
  match nth_error atoms (k_atom st) with
  | None => None
  | Some a =>
      if String.eqb s a then
        let c := colour_of p y_min y_max (impacts (k_atom st)) in
        Some {| k_atom := if (k_atom st <? List.length atoms - 1)%nat
                          then S (k_atom st) else k_atom st;
                y_vals := y_vals st ++ [impacts (k_atom st)];
                char_colors := char_colors st ++ [c];
                mol_cols := fun j => if (j =? k_atom st)%nat then Some c
                                     else mol_cols st j |}
      else
        Some {| k_atom := k_atom st;
                y_vals := y_vals st ++ [zero];
                char_colors := char_colors st ++ [(zero, zero, zero)];
                mol_cols := mol_cols st |}
  end.

Fixpoint plot_loop (atoms : list string) (impacts : vec A) (p : nat)
  (y_min y_max : A) (toks : list string) (st : plot_state) : option plot_state :=
  match toks with
  | [] => Some st
  | s :: rest =>
      match plot_step atoms impacts p y_min y_max s st with
      | None => None
      | Some st' => plot_loop atoms impacts p y_min y_max rest st'
      end
  end.

(** The plotting part of the script from the atoms of the molecule, their
    impacts and the tokens of the SMILES string.  Without atoms the script
    has stopped before ([np.min] of an empty array raises). *)
Definition plot_bars (info : info_t A) (atoms : list string) (impacts : vec A)
  (toks : list string) : option plot_state :=
  let n := List.length atoms in
  if (n =? 0)%nat then None else
  let y_min := min_upto (n - 1) impacts in
  let y_max := max_upto (n - 1) impacts in
  let p := if String.eqb (info0 info) "AMES" then 1%nat else 0%nat in
  plot_loop atoms impacts p y_min y_max toks
    {| k_atom := 0; y_vals := []; char_colors := []; mol_cols := fun _ => None |}.

End Main.

(** An RGB triple whose components all lie between 0 and 1 *)
Definition valid_colour (c : colour (A:=R)) : Prop :=
  let '(r, g, b) := c in (0 <= r <= 1 /\ 0 <= g <= 1 /\ 0 <= b <= 1)%R.

(** ** Where the relevance goes

    The sum a dense rule divides the contributions of unit [j] by: the
    weighted inputs, the bias and, in the inner rule, the stabiliser. *)
Definition inner_z (p : nat) (l_previous : vec R) (w0 : mat R) (w1 : vec R)
    (j : nat) : R :=
  (sumn p (fun k => l_previous k * w0 k j) + w1 j + lit_1em32)%R.
Definition out_z (p : nat) (l_previous : vec R) (w0 : mat R) (w1 : vec R) : R :=
  (sumn p (fun k => w0 k 0%nat * l_previous k) + w1 0%nat)%R.

(** The part of the relevance [l_next] that a dense rule hands to no input:
    the share of the bias (and of the stabiliser) in that sum. *)
Definition bias_share (p m : nat) (l_previous : vec R) (w0 : mat R)
    (w1 l_next : vec R) : R :=
  sumn m (fun j => l_next j * ((w1 j + lit_1em32) / inner_z p l_previous w0 w1 j))%R.
Definition bias_share_out (p : nat) (l_previous : vec R) (w0 : mat R)
    (w1 l_next : vec R) : R :=
  (l_next 0%nat * (w1 0%nat / out_z p l_previous w0 w1))%R.

(** No relevance rule of the pass over the string [mol] (with the tokens
    [x] and the reported value [y]) divides by zero: the divisors of the
    four dense rules and of the rules inside the strided convolutions, and
    the sums [s] that the strided convolutions rescale by. *)
Definition rules_defined (d : store R) (info : info_t R) (mol : string)
    (x : nat -> nat) (y : R) : Prop :=
  let N := String.length mol in
  let NN := N + CONV_OFFSET in
  let l_embed := encoder d NN N x in
  let cnn := l_cnn d NN l_embed in
  let dense := l_dense d cnn in
  let highway := l_highway d dense in
  let out := upd (l_out d info highway) 0 y in
  let R_hw := R_highway d highway out in
  let R_in := R_input_highway d dense R_hw in
  let R := R_cnn_flat d cnn R_in in
  out_z N_HIDDEN_CNN highway (dmat d 151) (dvec d 152) <> 0%R
  /\ (forall j, j < N_HIDDEN_CNN ->
        inner_z N_HIDDEN_CNN dense (dmat d 149) (dvec d 150) j <> 0%R)
  /\ (forall j, j < N_HIDDEN_CNN ->
        inner_z CNN_WIDTH cnn (dmat d 145) (dvec d 146) j <> 0%R)
  /\ (forall i j, i < NN -> j < 100 ->
        inner_z EMBEDDING_SIZE (l_embed i) (dmat d 121) (dvec d 122) j <> 0%R)
  /\ (forall s, In s conv_strided ->
        (forall i j, i < NN - width s - 1 -> j < channels s ->
           inner_z (width s * EMBEDDING_SIZE) (window EMBEDDING_SIZE l_embed i)
             (reshape_kernel EMBEDDING_SIZE (d (widx s))) (dvec d (widx s + 1)) j
           <> 0%R)
        /\ sum2 NN EMBEDDING_SIZE
             (conv_stride_loop NN EMBEDDING_SIZE (channels s) l_embed (d (widx s))
                (dvec d (widx s + 1)) (d_k d NN l_embed R s) (width s))
           <> 0%R).

(** The relevance that the four dense rules of the pass hand to no input:
    the output layer, the transform of the highway, the fusion layer and
    the convolution of width 1. *)
Definition bias_shares (d : store R) (info : info_t R) (mol : string)
    (x : nat -> nat) (y : R) : R :=
  let N := String.length mol in
  let NN := N + CONV_OFFSET in
  let l_embed := encoder d NN N x in
  let cnn := l_cnn d NN l_embed in
  let dense := l_dense d cnn in
  let highway := l_highway d dense in
  let out := upd (l_out d info highway) 0 y in
  let R_hw := R_highway d highway out in
  let R_tg := R_transformed_gated d dense R_hw in
  let R_in := R_input_highway d dense R_hw in
  let R := R_cnn_flat d cnn R_in in
  (bias_share_out N_HIDDEN_CNN highway (dmat d 151) (dvec d 152) out
   + bias_share N_HIDDEN_CNN N_HIDDEN_CNN dense (dmat d 149) (dvec d 150) R_tg
   + bias_share CNN_WIDTH N_HIDDEN_CNN cnn (dmat d 145) (dvec d 146) R_in
   + sumn NN (fun i => bias_share EMBEDDING_SIZE 100 (l_embed i) (dmat d 121)
                         (dvec d 122) (d_1 d NN l_embed R i)))%R.

(* ================================================================= *)
(** * Properties *)

(** ** Loops and sums *)

Lemma for_range_0 {S : Type} (body : nat -> S -> S) (init : S) :
  for_range 0 body init = init.
Proof. reflexivity. Qed.

Lemma for_range_S {S : Type} (n : nat) (body : nat -> S -> S) (init : S) :
  for_range (Datatypes.S n) body init = body n (for_range n body init).
Proof.
  unfold for_range. rewrite seq_S, fold_left_app. reflexivity.
Qed.

(** A loop whose pass [i] assigns row [i] from the rows of the array it
    started from: row [i < n] of the result is that assignment. *)
Lemma for_range_rows {A : Type} (n : nat) (g : nat -> vec A) (init : mat A) (i : nat) :
  for_range n (fun i y => upd_row y i (g i)) init i
  = if i <? n then g i else init i.
Proof.
  induction n as [|n IH].
  - reflexivity.
  - rewrite for_range_S. unfold upd_row at 1.
    destruct (Nat.eqb_spec i n) as [->|Hne].
    + rewrite (proj2 (Nat.ltb_lt n (S n))) by lia. reflexivity.
    + rewrite IH. destruct (Nat.ltb_spec i n), (Nat.ltb_spec i (S n)); trivial; lia.
Qed.

Lemma sumn_ext {A : Type} `{Scalar A} (n : nat) (f g : vec A) :
  (forall i, (i < n)%nat -> f i = g i) -> sumn n f = sumn n g.
Proof.
  induction n as [|n IH]; intros Hfg.
  - reflexivity.
  - cbn [sumn]. rewrite IH by (intros; apply Hfg; lia). rewrite Hfg by lia.
    reflexivity.
Qed.

Lemma sum2_ext {A : Type} `{Scalar A} (n m : nat) (a b : mat A) :
  (forall i j, (i < n)%nat -> (j < m)%nat -> a i j = b i j) -> sum2 n m a = sum2 n m b.
Proof.
  intros Hab. unfold sum2. apply sumn_ext. intros i Hi.
  apply sumn_ext. intros j Hj. now apply Hab.
Qed.

Local Open Scope R_scope.

(** Reading the operations of the real instance as those of [R] *)
Ltac real_ops :=
  cbn [ofZ sadd ssub smul sdiv sneg sexp ssqrt ssin scos spow10000
       sltb seqb sisnan sf32 Rscalar] in *.

Lemma sumn_R_S (n : nat) (f : vec R) : sumn (S n) f = sumn n f + f n.
Proof. reflexivity. Qed.

Lemma sumn_R_0 (n : nat) : sumn n (fun _ => 0) = 0.
Proof.
  induction n as [|n IH]; cbn [sumn]; real_ops; unfold zero in *; real_ops.
  - reflexivity.
  - rewrite IH. lra.
Qed.

Lemma sumn_R_plus (n : nat) (f g : vec R) :
  sumn n (fun i => f i + g i) = sumn n f + sumn n g.
Proof.
  induction n as [|n IH]; cbn [sumn]; real_ops; unfold zero; real_ops.
  - lra.
  - rewrite IH. lra.
Qed.

Lemma sumn_R_scal_l (n : nat) (c : R) (f : vec R) :
  sumn n (fun i => c * f i) = c * sumn n f.
Proof.
  induction n as [|n IH]; cbn [sumn]; real_ops; unfold zero; real_ops.
  - lra.
  - rewrite IH. lra.
Qed.

Lemma sumn_R_scal_r (n : nat) (c : R) (f : vec R) :
  sumn n (fun i => f i * c) = sumn n f * c.
Proof.
  induction n as [|n IH]; cbn [sumn]; real_ops; unfold zero; real_ops.
  - lra.
  - rewrite IH. lra.
Qed.

Lemma sumn_R_const (n : nat) (c : R) : sumn n (fun _ => c) = INR n * c.
Proof.
  induction n as [|n IH].
  - cbn. unfold zero. real_ops. lra.
  - rewrite sumn_R_S, IH, S_INR. lra.
Qed.

(** A sum with a single non-zero term *)
Lemma sumn_R_single (n i : nat) (f : vec R) :
  (i < n)%nat -> (forall k, k <> i -> f k = 0) -> sumn n f = f i.
Proof.
  induction n as [|n IH]; intros Hi Hz.
  - lia.
  - rewrite sumn_R_S. destruct (Nat.eq_dec i n) as [->|Hne].
    + rewrite (sumn_ext n f (fun _ => 0)) by (intros k Hk; apply Hz; lia).
      rewrite sumn_R_0. lra.
    + rewrite IH by (trivial; lia). rewrite (Hz n) by lia. lra.
Qed.

Lemma sumn_R_exchange (n m : nat) (a : mat R) :
  sumn n (fun i => sumn m (fun j => a i j)) = sumn m (fun j => sumn n (fun i => a i j)).
Proof.
  induction n as [|n IH].
  - cbn [sumn]. now rewrite sumn_R_0.
  - rewrite sumn_R_S, IH. rewrite <- sumn_R_plus. reflexivity.
Qed.

(** ** The additive merge (C9) *)



(** ** De-pooling (C2) *)

(** The loop of [calcLRPPool] in closed form: column [c < m] holds the
    float32 of [R c] in row [inds c] and zero elsewhere. *)
Lemma calcLRPPool_entry {A : Type} `{Scalar A} (m : nat) (inds : nat -> nat)
    (R : vec A) (r c : nat) :
  calcLRPPool m inds R r c
  = if (c <? m)%nat && (r =? inds c)%nat then sf32 (R c) else zero.
Proof.
  unfold calcLRPPool. induction m as [|m IH].
  - reflexivity.
  - rewrite for_range_S. unfold upd2 at 1.
    destruct (Nat.eqb_spec c m) as [->|Hne].
    + rewrite (proj2 (Nat.ltb_lt m (S m))) by lia.
      rewrite andb_true_r. cbn [andb].
      destruct (Nat.eqb_spec r (inds m)); trivial.
      rewrite IH. rewrite (proj2 (Nat.ltb_ge m m)) by lia. reflexivity.
    + rewrite andb_false_r. rewrite IH.
      destruct (Nat.ltb_spec c m), (Nat.ltb_spec c (S m)); trivial; lia.
Qed.

(** C2 (amended). For every channel [i] of a max-pool backward step, in
    every arithmetic, the de-pooled array holds the incoming relevance
    [R i] rounded to float32 at the recorded argmax [inds i] and the
    [0.0] of [np.zeros] at every other position of the channel; in real
    arithmetic, where the store rounds nothing, the channel therefore sums
    over the positions to [R i]. *)
Theorem calcLRPPool_routes (n m : nat) (inds : nat -> nat) (i : nat) :
  (i < m)%nat -> (inds i < n)%nat ->
  (forall (A : Type) (SA : Scalar A) (R : vec A),
     calcLRPPool m inds R (inds i) i = sf32 (R i)
     /\ forall r, r <> inds i -> calcLRPPool m inds R r i = zero)
  /\ (forall R : vec R, sumn n (fun r => calcLRPPool m inds R r i) = R i).
Proof.
  intros Hi Hin. split.
  - intros A SA R. split.
    + now rewrite calcLRPPool_entry, (proj2 (Nat.ltb_lt i m)), Nat.eqb_refl.
    + intros r Hr. rewrite calcLRPPool_entry.
      now rewrite (proj2 (Nat.eqb_neq r (inds i))), andb_false_r.
  - intros R. rewrite (sumn_R_single n (inds i)); trivial.
    + now rewrite calcLRPPool_entry, (proj2 (Nat.ltb_lt i m)), Nat.eqb_refl.
    + intros r Hr. rewrite calcLRPPool_entry.
      now rewrite (proj2 (Nat.eqb_neq r (inds i))), andb_false_r.
Qed.

Lemma calcLRPPool_routes_witness :
  (forall (A : Type) (SA : Scalar A) (R : vec A),
     calcLRPPool 2 (fun c => if (c =? 0)%nat then 2%nat else 0%nat) R 0%nat 1%nat
     = sf32 (R 1%nat)
     /\ forall r, r <> 0%nat ->
          calcLRPPool 2 (fun c => if (c =? 0)%nat then 2%nat else 0%nat) R r 1%nat = zero)
  /\ (forall R : vec R,
        sumn 3 (fun r => calcLRPPool 2 (fun c => if (c =? 0)%nat then 2%nat else 0%nat)
                           R r 1%nat) = R 1%nat).
Proof.
  apply (calcLRPPool_routes 3 2 (fun c => if (c =? 0)%nat then 2%nat else 0%nat) 1%nat);
    simpl; lia.
Defined.

(** C2 (as stated) fails in the floats: a relevance [0.1] (a float64, as
    [calcLRPDenseInner] returns it) is stored as the float32
    [0.100000001490116...], so the only non-zero entry of the channel, and
    with it the sum of the channel, is not the incoming relevance. *)
Lemma calcLRPPool_rounds_relevance :
  exists R : vec PrimFloat.float,
    forall lm : Libm,
      let demax := @calcLRPPool _ (Fscalar lm) 1 (fun _ => 0%nat) R in
      FloatOps.Prim2SF (R 0%nat) = SpecFloat.S754_finite false 7205759403792794 (-56)
      /\ FloatOps.Prim2SF (demax 0%nat 0%nat)
         = SpecFloat.S754_finite false 7205759511166976 (-56)
      /\ PrimFloat.eqb (demax 0%nat 0%nat) (R 0%nat) = false
      /\ PrimFloat.eqb (@sumn _ (Fscalar lm) 1 (fun r => demax r 0%nat)) (R 0%nat)
         = false.
Proof.
  exists (fun _ => PrimFloat.div (float_of_Z 1) (float_of_Z 10)).
  intros lm. cbv zeta. repeat split; vm_compute; reflexivity.
Qed.

(** ** Strided convolution backward (C3, C4) *)

Lemma sum2_R_scal_r (n m : nat) (a : mat R) (c : R) :
  sum2 n m (fun i j => a i j * c) = sum2 n m a * c.
Proof.
  unfold sum2. rewrite <- sumn_R_scal_r. apply sumn_ext. intros i _.
  apply sumn_R_scal_r.
Qed.

(** The rescale of [calcLRPConvStride]: dividing by the accumulated sum
    [s] and multiplying by the sum of [l_out] gives an array whose sum is
    that of [l_out], when [s] is not zero. *)
Lemma conv_stride_rescale_sum (n c n_out m : nat) (l_prev : mat R)
    (w0 : ten3 R) (w1 : vec R) (l_out : mat R) (stride : nat) :
  sum2 n c (conv_stride_loop n c m l_prev w0 w1 l_out stride) <> 0 ->
  sum2 n c (calcLRPConvStride n c n_out m l_prev w0 w1 l_out stride)
  = sum2 n_out m l_out.
Proof.
  intros Hs. unfold calcLRPConvStride. real_ops.
  set (y := conv_stride_loop n c m l_prev w0 w1 l_out stride) in *.
  rewrite sum2_R_scal_r. unfold Rdiv. rewrite sum2_R_scal_r.
  field. exact Hs.
Qed.

Arguments xadd : simpl never.
Arguments xsub : simpl never.
Arguments xmul : simpl never.
Arguments xdiv : simpl never.

(** Reading the operations of the extended reals *)
Ltac xreal_ops :=
  cbn [ofZ lit_1em32 sadd ssub smul sdiv sneg sexp ssqrt ssin scos spow10000
       sltb seqb sisnan sf32 Xscalar] in *.

(** Operations of the extended reals on finite values that are not
    negative *)
Lemma xadd_fin (x y : R) : xadd (Fin x) (Fin y) = Fin (x + y).
Proof. reflexivity. Qed.

Lemma xsigned_nonneg (r : R) : xsigned false r = Fin r.
Proof.
  unfold xsigned, xzero. destruct (Req_dec_T r 0) as [->|]; reflexivity.
Qed.

Lemma xsign_nonneg (x : R) : 0 <= x -> xsign (Fin x) = false.
Proof. intros Hx. cbn. destruct (Rlt_dec x 0); [lra|reflexivity]. Qed.

Lemma xmul_fin (x y : R) : 0 <= x -> 0 <= y -> xmul (Fin x) (Fin y) = Fin (x * y).
Proof.
  intros Hx Hy. unfold xmul. cbn [xisnan xis_inf orb andb].
  rewrite andb_false_r. cbn [orb].
  rewrite !xsign_nonneg by trivial. apply xsigned_nonneg.
Qed.

Lemma xdiv_fin (x y : R) : 0 <= x -> 0 < y -> xdiv (Fin x) (Fin y) = Fin (x / y).
Proof.
  intros Hx Hy. unfold xdiv. cbn [xisnan xis_inf orb andb xis_zero].
  destruct (Req_dec_T y 0) as [Hz|_]; [lra|].
  rewrite andb_false_r. cbn [orb].
  rewrite !xsign_nonneg by lra. apply xsigned_nonneg.
Qed.

Lemma xdiv_zero_zero : xdiv (Fin 0) (Fin 0) = NaN.
Proof.
  unfold xdiv. cbn [xisnan xis_inf orb andb xis_zero].
  destruct (Req_dec_T 0 0) as [_|Hn]; [reflexivity|contradiction].
Qed.

Lemma xmul_nan_l (a : xreal) : xmul NaN a = NaN.
Proof. reflexivity. Qed.

Lemma xmul_nan_r (a : xreal) : xmul a NaN = NaN.
Proof. unfold xmul. cbn [xisnan]. now rewrite orb_true_r. Qed.

Lemma xdiv_nan_r (a : xreal) : xdiv a NaN = NaN.
Proof. unfold xdiv. cbn [xisnan]. now rewrite orb_true_r. Qed.

Lemma xadd_nan_r (a : xreal) : xadd a NaN = NaN.
Proof. destruct a; reflexivity. Qed.

Lemma xadd_nan_l (a : xreal) : xadd NaN a = NaN.
Proof. reflexivity. Qed.

Lemma xsumn_nan (n : nat) (f : vec xreal) :
  (0 < n)%nat -> (forall i, (i < n)%nat -> f i = NaN) -> sumn n f = NaN.
Proof.
  intros Hn Hf. destruct n as [|n]; [lia|].
  cbn [sumn]. rewrite Hf by lia. xreal_ops. apply xadd_nan_r.
Qed.

Lemma xsumn_zeros (n : nat) : sumn n (fun _ => Fin 0) = Fin 0.
Proof.
  induction n as [|n IH].
  - reflexivity.
  - cbn [sumn]. rewrite IH. xreal_ops. rewrite xadd_fin. f_equal. lra.
Qed.

(** Evaluating an expression of finite extended reals that are not
    negative: a division is decided by whether its divisor is zero. *)
Ltac xnorm :=
  xreal_ops; cbn [sumn];
  repeat first
    [ rewrite xadd_fin
    | rewrite xmul_fin by lra
    | rewrite xdiv_fin by lra
    | match goal with
      | |- context [xdiv (Fin ?x) (Fin ?y)] =>
          replace x with 0 by lra; replace y with 0 by lra; rewrite xdiv_zero_zero
      end
    | rewrite xmul_nan_l
    | rewrite xmul_nan_r
    | rewrite xadd_nan_l
    | rewrite xadd_nan_r
    | rewrite xdiv_nan_r ].

Ltac unfold_toy :=
  unfold calcLRPConvStride, conv_stride_loop, for_range;
  cbn [Nat.sub seq fold_left];
  unfold sum2, add_rows, calcLRPDenseInner, window, reshape_kernel, toy_ones,
    toy_kernel, toy_bias, toy_rel, toy_rel_below, zeros2, one, zero.

(** An empty loop leaves [s = 0.0], and the rescale divides zero by zero. *)
Lemma conv_stride_empty_nan (n c n_out m : nat) (l_prev : mat xreal)
    (w0 : ten3 xreal) (w1 : vec xreal) (l_out : mat xreal) (stride r k : nat) :
  (n <= stride + 1)%nat ->
  calcLRPConvStride n c n_out m l_prev w0 w1 l_out stride r k = NaN.
Proof.
  intros Hn. unfold calcLRPConvStride, conv_stride_loop. cbv zeta.
  replace (n - stride - 1)%nat with 0%nat by lia. rewrite for_range_0.
  unfold sum2, zeros2, zero. xreal_ops.
  rewrite (sumn_ext n _ (fun _ => Fin 0)) by (intros; apply xsumn_zeros).
  rewrite xsumn_zeros, xdiv_zero_zero. apply xmul_nan_l.
Qed.

(** C3 at its failing inputs.  When the loop of [calcLRPConvStride] is
    empty ([n <= stride + 1]: the width-20 filter on a string of one
    character has [n = 21]), the array it accumulates is all [0.0], its sum
    [s] is [0.0], and the rescale [y / s * np.sum(l_out)] is [0.0 / 0.0],
    a NaN, at every position: the returned relevance does not sum to the
    incoming one, whatever the inputs are. *)
Theorem calcLRPConvStride_empty_loop (n c n_out m : nat) (l_prev : mat xreal)
    (w0 : ten3 xreal) (w1 : vec xreal) (l_out : mat xreal) (stride : nat) :
  (n <= stride + 1)%nat ->
  (forall r k, calcLRPConvStride n c n_out m l_prev w0 w1 l_out stride r k = NaN)
  /\ ((0 < n)%nat -> (0 < c)%nat ->
      sum2 n c (calcLRPConvStride n c n_out m l_prev w0 w1 l_out stride) = NaN).
Proof.
  intros Hn. split.
  - intros r k. now apply conv_stride_empty_nan.
  - intros Hn0 Hc0. unfold sum2. apply xsumn_nan; [exact Hn0|].
    intros i _. apply xsumn_nan; [exact Hc0|]. intros k _.
    now apply conv_stride_empty_nan.
Qed.

Lemma calcLRPConvStride_empty_loop_witness :
  (forall r k, calcLRPConvStride (A:=xreal) 21 64 21 160 toy_ones toy_kernel toy_bias
                 (toy_rel 0) 20 r k = NaN)
  /\ ((0 < 21)%nat -> (0 < 64)%nat ->
      sum2 21 64 (calcLRPConvStride (A:=xreal) 21 64 21 160 toy_ones toy_kernel
                    toy_bias (toy_rel 0) 20) = NaN).
Proof.
  apply (calcLRPConvStride_empty_loop 21 64 21 160 toy_ones toy_kernel toy_bias
           (toy_rel 0) 20).
  lia.
Defined.

Lemma for_range_ext {S : Type} (n : nat) (body body' : nat -> S -> S) (init : S) :
  (forall i st, (i < n)%nat -> body i st = body' i st) ->
  for_range n body init = for_range n body' init.
Proof.
  induction n as [|n IH]; intros Hb.
  - reflexivity.
  - rewrite !for_range_S, IH by (intros; apply Hb; lia). apply Hb. lia.
Qed.

(** The loop of [calcLRPConvStride] reads the rows [i < n - stride - 1] of
    [l_out] only, two fewer than the [n - stride + 1] windows of the forward
    convolution. *)
Lemma conv_stride_loop_reads {A : Type} `{Scalar A} (n c m : nat)
    (l_prev : mat A) (w0 : ten3 A) (w1 : vec A) (l_out l_out' : mat A)
    (stride : nat) :
  (forall i, (i < n - stride - 1)%nat -> l_out i = l_out' i) ->
  conv_stride_loop n c m l_prev w0 w1 l_out stride
  = conv_stride_loop n c m l_prev w0 w1 l_out' stride.
Proof.
  intros Hrows. unfold conv_stride_loop. apply for_range_ext.
  intros i st Hi. cbv zeta. now rewrite Hrows.
Qed.

Lemma eps32_pos : 0 < lit_1em32 (A:=R).
Proof. cbn [lit_1em32 Rscalar]. lra. Qed.

(** C4 at a failing input: four positions, width 2, so the forward pass has
    the windows 0, 1 and 2.  Relevance at window 1 alone is never
    un-flattened: the loop accumulates nothing, and the rescale then
    divides zero by zero.  With relevance one at windows 0 and 1, position
    2, which window 1 covers, still receives nothing, and the relevance of
    window 1 is handed to the positions of window 0. *)
Theorem calcLRPConvStride_skips_windows :
  (forall r k, conv_stride_loop (A:=R) 4 1 1 toy_ones toy_kernel toy_bias
                 (toy_rel 1) 2 r k = 0)
  /\ (forall k, calcLRPConvStride (A:=xreal) 4 1 4 1 toy_ones toy_kernel
                  toy_bias (toy_rel 1) 2 2%nat k = NaN)
  /\ (forall k, calcLRPConvStride (A:=R) 4 1 4 1 toy_ones toy_kernel toy_bias
                  (toy_rel_below 2) 2 2%nat k = 0)
  /\ (forall k, calcLRPConvStride (A:=R) 4 1 4 1 toy_ones toy_kernel toy_bias
                  (toy_rel_below 2) 2 0%nat k = 1).
Proof.
  repeat split.
  - intros r k. unfold_toy. cbn.
    destruct r as [|[|r]]; cbn; lra.
  - intros k. unfold_toy. cbn. unfold zero. xnorm. reflexivity.
  - intros k. unfold_toy. cbn. lra.
  - intros k. unfold_toy. cbn. field_simplify; lra.
Qed.

(** ** Vocabulary and padding (C8, C10) *)

Lemma dict_get_build (l : list ascii) (i : nat) (acc : dict) (ch : ascii) :
  dict_get (fold_left (fun m p => dict_set m (snd p) (fst p)) (enumerate_from i l) acc) ch
  = None <-> ~ In ch l /\ dict_get acc ch = None.
Proof.
  revert i acc. induction l as [|a l IH]; intros i acc; cbn [enumerate_from fold_left].
  - tauto.
  - rewrite IH. cbn [fst snd dict_set dict_get In].
    destruct (Ascii.eqb_spec ch a) as [->|Hne]; split.
    + intros [_ Hd]. discriminate.
    + intros [Hn _]. exfalso. apply Hn. now left.
    + intros [Hn Hd]. split; trivial. intros [Ha|Hin]; [congruence|contradiction].
    + intros [Hn Hd]. split; trivial. intros Hin. apply Hn. now right.
Qed.

(** The keys of [char_to_ix] are the characters of [chars]. *)
Lemma char_to_ix_None (ch : ascii) :
  dict_get char_to_ix ch = None <-> ~ In ch (list_ascii_of_string chars).
Proof.
  unfold char_to_ix. rewrite dict_get_build. cbn [dict_get]. tauto.
Qed.

(** The loop raises at the first character that is no key, and otherwise
    leaves the positions before [i] and from [i + len(mol)] on untouched. *)
Lemma fill_tokens_KeyError (mol : list ascii) (i : nat) (x : nat -> nat) (ch : ascii) :
  In ch mol -> dict_get char_to_ix ch = None ->
  exists ch', fill_tokens mol i x = inl ch'
              /\ In ch' mol /\ dict_get char_to_ix ch' = None.
Proof.
  revert i x. induction mol as [|a mol IH]; intros i x Hin Hnone.
  - destruct Hin.
  - cbn [fill_tokens]. destruct (dict_get char_to_ix a) as [ix|] eqn:Ha.
    + destruct Hin as [->|Hin]; [congruence|].
      destruct (IH (S i) (fun k => if (k =? i)%nat then ix else x k) Hin Hnone)
        as (ch' & Hf & Hin' & Hn').
      exists ch'. repeat split; trivial. now right.
    + exists a. repeat split; trivial. now left.
Qed.

Lemma fill_tokens_frame (mol : list ascii) (i : nat) (x x' : nat -> nat) (k : nat) :
  fill_tokens mol i x = inr x' ->
  (k < i \/ i + List.length mol <= k)%nat -> x' k = x k.
Proof.
  revert i x. induction mol as [|a mol IH]; intros i x Hf Hk; cbn [fill_tokens] in Hf.
  - now inversion Hf.
  - destruct (dict_get char_to_ix a) as [ix|]; [|discriminate].
    rewrite (IH _ _ Hf) by (cbn [List.length] in Hk; lia).
    cbn [List.length] in Hk.
    destruct (Nat.eqb_spec k i); trivial; lia.
Qed.

Lemma length_list_ascii_of_string (s : string) :
  List.length (list_ascii_of_string s) = String.length s.
Proof. induction s as [|a s IH]; cbn; congruence. Qed.

(** C8. A string with a character outside the vocabulary makes [calcQSAR]
    end in the [KeyError] of the lookup, for a character of the string that
    is not in the vocabulary, whatever the weights, the metadata and the
    arithmetic: the error comes before any tensor is computed. *)
Theorem calcQSAR_vocabulary_error (mol : string) (ch : ascii) :
  In ch (list_ascii_of_string mol) ->
  ~ In ch (list_ascii_of_string chars) ->
  exists ch',
    In ch' (list_ascii_of_string mol)
    /\ ~ In ch' (list_ascii_of_string chars)
    /\ forall (A : Type) (SA : Scalar A) (d : store A) (info : info_t A)
              (MolWt : A) (doLrp : bool),
         calcQSAR d info mol MolWt doLrp = KeyError ch'.
Proof.
  intros Hin Hout. apply char_to_ix_None in Hout.
  destruct (fill_tokens_KeyError (list_ascii_of_string mol) 0 (fun _ => 0%nat) ch Hin Hout)
    as (ch' & Hf & Hin' & Hn').
  exists ch'. split; [exact Hin'|]. split; [now apply char_to_ix_None|].
  intros A SA d info MolWt doLrp. unfold calcQSAR, tokens. now rewrite Hf.
Qed.

Lemma calcQSAR_vocabulary_error_witness :
  exists ch',
    In ch' (list_ascii_of_string "C!C")
    /\ ~ In ch' (list_ascii_of_string chars)
    /\ forall (A : Type) (SA : Scalar A) (d : store A) (info : info_t A)
              (MolWt : A) (doLrp : bool),
         calcQSAR d info "C!C" MolWt doLrp = KeyError ch'.
Proof.
  apply (calcQSAR_vocabulary_error "C!C" "!"%char).
  - cbn. right. left. reflexivity.
  - apply char_to_ix_None. reflexivity.
Defined.

(** The loops that fill the positional encoding, in closed form *)
Lemma pos_row_loop {A : Type} `{Scalar A} (n j : nat) (p : mat A) (r c : nat) :
  for_range n (fun i p' => upd2 p' j i (sf32 (pos_entry j i))) p r c
  = if (r =? j)%nat && (c <? n)%nat then sf32 (pos_entry j c) else p r c.
Proof.
  induction n as [|n IH].
  - cbn. now rewrite andb_false_r.
  - rewrite for_range_S. unfold upd2 at 1. rewrite IH.
    destruct (Nat.eqb_spec r j) as [->|Hne]; cbn [andb]; trivial.
    destruct (Nat.eqb_spec c n) as [->|Hc].
    + now rewrite (proj2 (Nat.ltb_lt n (S n))) by lia.
    + destruct (Nat.ltb_spec c n), (Nat.ltb_spec c (S n)); trivial; lia.
Qed.

Lemma pos_entry_at {A : Type} `{Scalar A} (N j c : nat) :
  pos N j c
  = if (j <? N)%nat && (c <? EMBEDDING_SIZE)%nat then sf32 (pos_entry j c) else zero.
Proof.
  unfold pos. induction N as [|N IH].
  - reflexivity.
  - rewrite for_range_S, pos_row_loop, IH.
    destruct (Nat.eqb_spec j N) as [->|Hne]; cbn [andb].
    + rewrite (proj2 (Nat.ltb_lt N (S N))) by lia.
      rewrite (proj2 (Nat.ltb_ge N N)) by lia. cbn [andb].
      now destruct (c <? EMBEDDING_SIZE)%nat.
    + destruct (Nat.ltb_spec j N), (Nat.ltb_spec j (S N)); trivial; lia.
Qed.




(** ** More on sums of reals *)

Lemma sumn_R_split (a b : nat) (f : vec R) :
  sumn (a + b) f = sumn a f + sumn b (fun i => f (a + i)%nat).
Proof.
  induction b as [|b IH].
  - rewrite Nat.add_0_r. cbn [sumn]. unfold zero. real_ops. lra.
  - rewrite Nat.add_succ_r, !sumn_R_S, IH. lra.
Qed.

(** A sum over the flat index of an array of shape [(k, c)] *)
Lemma sumn_R_divmod (k c : nat) (F : nat -> nat -> R) :
  (0 < c)%nat ->
  sumn (k * c) (fun r => F (r / c)%nat (r mod c)%nat)
  = sumn k (fun p => sumn c (F p)).
Proof.
  intros Hc. induction k as [|k IH].
  - reflexivity.
  - rewrite sumn_R_S, <- IH.
    replace (S k * c)%nat with (k * c + c)%nat by lia.
    rewrite sumn_R_split. f_equal. apply sumn_ext. intros i Hi.
    replace (k * c + i)%nat with (i + k * c)%nat by lia.
    rewrite Nat.div_add, Nat.Div0.mod_add by lia.
    rewrite Nat.div_small, Nat.mod_small by lia. reflexivity.
Qed.

Lemma sumn_R_mult_0_r (n : nat) (f : vec R) : sumn n (fun i => f i * 0) = 0.
Proof.
  rewrite (sumn_ext n _ (fun _ => 0)) by (intros; real_ops; lra).
  apply sumn_R_0.
Qed.

Lemma sumn_R_mult_0_l (n : nat) (f : vec R) : sumn n (fun i => 0 * f i) = 0.
Proof.
  rewrite (sumn_ext n _ (fun _ => 0)) by (intros; real_ops; lra).
  apply sumn_R_0.
Qed.

Lemma sumn_R_const_inv (n : nat) : (0 < n)%nat -> sumn n (fun _ => 1 / INR n) = 1.
Proof.
  intros Hn. rewrite sumn_R_const. field. apply not_0_INR. lia.
Qed.

Lemma relu_R_nonneg (x : R) : 0 <= x -> relu x = x.
Proof.
  intros Hx. unfold relu, zero. real_ops.
  destruct (Rlt_dec x 0); [lra|reflexivity].
Qed.

(** ** The forward pass on the constant store *)

(** With a zero scale in the last layer normalisation the encoder output is
    its shift, whatever the rest of the encoder computes. *)
Lemma encoder_last_norm (d : store R) (NN N : nat) (x : nat -> nat) :
  (forall c, dvec d 119 c = 0) ->
  encoder d NN N x = fun _ c => dvec d 120 c.
Proof.
  intros Hg. unfold encoder. unfold encoder_block at 1. cbv zeta.
  unfold layer_norm. cbn [Nat.add].
  extensionality i. extensionality c. rewrite Hg. real_ops.
  unfold Rdiv. ring.
Qed.

Lemma In_conv_strided (P : conv_spec -> Prop) :
  Forall P conv_strided -> forall s, In s conv_strided -> P s.
Proof. intros HP s Hs. rewrite Forall_forall in HP. now apply HP. Qed.

Ltac each_conv :=
  match goal with
  | |- forall s, In s conv_strided -> @?P s => apply (In_conv_strided P)
  end;
  repeat (apply Forall_cons; [cbv beta|]); [..|apply Forall_nil].

Lemma conv_strided_width (s : conv_spec) :
  In s conv_strided -> (2 <= width s <= 20)%nat.
Proof. revert s. each_conv; cbn; lia. Qed.

Lemma store_const_kernel (b : R) (s : conv_spec) :
  In s conv_strided ->
  store_const b (widx s) = (fun _ _ _ => 1 / INR (width s * EMBEDDING_SIZE))
  /\ store_const b (widx s + 1)%nat = (fun _ _ _ => 0).
Proof. revert s. each_conv; split; reflexivity. Qed.

Lemma store_const_encoder (b : R) (NN N : nat) (x : nat -> nat) :
  encoder (store_const b) NN N x = fun _ _ => 1.
Proof. rewrite encoder_last_norm; reflexivity. Qed.

Lemma store_const_lc_1 (b : R) :
  lc_1 (store_const b) (fun _ _ => 1) = fun _ _ => 1.
Proof.
  extensionality i. extensionality o. unfold lc_1, dot.
  change (dmat (store_const b) 121) with (fun (_ _ : nat) => 1 / INR (1 * EMBEDDING_SIZE)).
  change (dvec (store_const b) 122 o) with 0. real_ops.
  rewrite (sumn_ext _ _ (fun _ => 1 / INR EMBEDDING_SIZE))
    by (intros; cbn [Nat.mul]; rewrite Nat.add_0_r; real_ops; lra).
  rewrite sumn_R_const_inv by (unfold EMBEDDING_SIZE; lia).
  rewrite relu_R_nonneg; lra.
Qed.

(** The loop of a strided convolution in closed form *)
Lemma lc_k_row {A : Type} `{Scalar A} (d : store A) (NN : nat) (E : mat A)
    (s : conv_spec) (i : nat) :
  lc_k d NN E s i
  = if (i <? NN - (width s - 1))%nat
    then fun o => sf32 (relu (dot (width s * EMBEDDING_SIZE) (window EMBEDDING_SIZE E i)
                                (reshape_kernel EMBEDDING_SIZE (d (widx s))) o
                              [+] dvec d (widx s + 1) o))
    else zeros.
Proof.
  unfold lc_k. cbv zeta.
  now rewrite (for_range_rows (NN - (width s - 1))
                 (fun i o => sf32 (relu (dot (width s * EMBEDDING_SIZE)
                                           (window EMBEDDING_SIZE E i)
                                           (reshape_kernel EMBEDDING_SIZE (d (widx s))) o
                                         [+] dvec d (widx s + 1) o))) zeros2 i).
Qed.

Lemma store_const_lc_k (b : R) (NN : nat) (s : conv_spec) (i o : nat) :
  In s conv_strided ->
  lc_k (store_const b) NN (fun _ _ => 1) s i o
  = if (i <? NN - (width s - 1))%nat then 1 else 0.
Proof.
  intros Hs. rewrite lc_k_row.
  destruct (i <? NN - (width s - 1))%nat; [|reflexivity].
  destruct (store_const_kernel b s Hs) as [Hk Hb].
  unfold dot, reshape_kernel, window, dvec. rewrite Hk, Hb. real_ops.
  rewrite (sumn_ext _ _ (fun _ => 1 / INR (width s * EMBEDDING_SIZE)))
    by (intros; real_ops; lra).
  rewrite sumn_R_const_inv
    by (pose proof (conv_strided_width s Hs); unfold EMBEDDING_SIZE; lia).
  rewrite relu_R_nonneg; lra.
Qed.

Lemma max_upto_const (k : nat) (f : vec R) (c : R) :
  (forall i, (i <= k)%nat -> f i = c) -> max_upto k f = c.
Proof.
  induction k as [|k IH]; intros Hf; cbn [max_upto].
  - apply Hf. lia.
  - rewrite IH by (intros; apply Hf; lia). rewrite Hf by lia.
    unfold np_max2. real_ops. destruct (Rlt_dec c c); reflexivity.
Qed.

Lemma argmax_upto_const (k : nat) (f : vec R) (c : R) :
  (forall i, (i <= k)%nat -> f i = c) -> argmax_upto k f = 0%nat.
Proof.
  induction k as [|k IH]; intros Hf; cbn [argmax_upto].
  - reflexivity.
  - rewrite IH by (intros; apply Hf; lia). cbv zeta.
    rewrite !Hf by lia. unfold argmax_moves. real_ops.
    destruct (Rlt_dec c c); [lra|reflexivity].
Qed.

Lemma concat_vecs_const (l : list (nat * vec R)) (c : R) (j : nat) :
  Forall (fun p => forall i, (i < fst p)%nat -> snd p i = c) l ->
  concat_vecs l j = if (j <? total_length l)%nat then c else 0.
Proof.
  intros Hl. revert j. induction Hl as [|[n v] l Hv Hl IH]; intros j.
  - reflexivity.
  - cbn [concat_vecs total_length fold_right fst snd] in *.
    fold (total_length l).
    destruct (Nat.ltb_spec j n) as [Hj|Hj].
    + rewrite (proj2 (Nat.ltb_lt j (n + total_length l))) by lia. now apply Hv.
    + rewrite IH.
      destruct (Nat.ltb_spec (j - n) (total_length l)),
               (Nat.ltb_spec j (n + total_length l)); trivial; lia.
Qed.

Lemma store_const_max_k (b : R) (NN : nat) (s : conv_spec) (o : nat) :
  (20 <= NN)%nat -> In s conv_strided ->
  max_axis0 (NN - (width s - 1)) (lc_k (store_const b) NN (fun _ _ => 1) s) o = 1
  /\ max_k (store_const b) NN (fun _ _ => 1) s o = 0%nat.
Proof.
  intros HNN Hs. pose proof (conv_strided_width s Hs) as Hw.
  assert (Hcol : forall i, (i <= NN - (width s - 1) - 1)%nat ->
                   lc_k (store_const b) NN (fun _ _ => 1) s i o = 1).
  { intros i Hi. rewrite store_const_lc_k by trivial.
    rewrite (proj2 (Nat.ltb_lt i (NN - (width s - 1)))) by lia. reflexivity. }
  split.
  - unfold max_axis0. now apply max_upto_const.
  - unfold max_k, argmax_axis0. now apply argmax_upto_const with (c := 1).
Qed.

Lemma store_const_max_1 (b : R) (NN : nat) (o : nat) :
  max_axis0 NN (lc_1 (store_const b) (fun _ _ => 1)) o = 1
  /\ max_1 (store_const b) NN (fun _ _ => 1) o = 0%nat.
Proof.
  unfold max_1, max_axis0, argmax_axis0. rewrite store_const_lc_1. split.
  - now apply max_upto_const.
  - now apply argmax_upto_const with (c := 1).
Qed.

Lemma store_const_l_cnn (b : R) (NN : nat) (j : nat) :
  (20 <= NN)%nat ->
  l_cnn (store_const b) NN (fun _ _ => 1) j = if (j <? CNN_WIDTH)%nat then 1 else 0.
Proof.
  intros HNN. unfold l_cnn.
  rewrite (concat_vecs_const _ 1).
  - reflexivity.
  - constructor.
    + intros i _. apply store_const_max_1.
    + rewrite Forall_map. apply Forall_forall. intros s Hs i _. cbn [snd].
      now apply store_const_max_k.
Qed.

Lemma dot_l_cnn_const (v : vec R) (w : R) :
  (forall j, (j < CNN_WIDTH)%nat -> v j = 1) ->
  sumn CNN_WIDTH (fun j => v j * (w / INR CNN_WIDTH)) = w.
Proof.
  intros Hv.
  rewrite (sumn_ext _ _ (fun _ => w / INR CNN_WIDTH))
    by (intros j Hj; rewrite Hv by trivial; lra).
  rewrite sumn_R_const. field. apply not_0_INR. unfold CNN_WIDTH. lia.
Qed.

Lemma store_const_l_dense (b : R) (cnn : vec R) :
  (forall j, (j < CNN_WIDTH)%nat -> cnn j = 1) ->
  l_dense (store_const b) cnn = fun _ => 1.
Proof.
  intros Hc. extensionality c. unfold l_dense, dot.
  change (dmat (store_const b) 145) with (fun (_ _ : nat) => 1 / INR CNN_WIDTH).
  change (dvec (store_const b) 146 c) with 0. real_ops.
  rewrite dot_l_cnn_const by trivial. rewrite relu_R_nonneg; lra.
Qed.

Lemma store_const_highway (b : R) :
  transformed_gated (store_const b) (fun _ => 1) = (fun _ => 0)
  /\ identity_gated (store_const b) (fun _ => 1) = (fun _ => 1 / 2)
  /\ l_highway (store_const b) (fun _ => 1) = (fun _ => 1 / 2).
Proof.
  assert (Hg : transform_gate (store_const b) (fun _ => 1) = fun _ => 1 / 2).
  { extensionality c. unfold transform_gate, dot.
    change (dmat (store_const b) 147) with (fun (_ _ : nat) => 0).
    change (dvec (store_const b) 148 c) with 0. unfold one. real_ops.
    rewrite sumn_R_mult_0_r. replace (- 0 - 0) with 0 by lra.
    rewrite exp_0. lra. }
  assert (Ht : transformed_data (store_const b) (fun _ => 1) = fun _ => 0).
  { extensionality c. unfold transformed_data, dot.
    change (dmat (store_const b) 149) with (fun (_ _ : nat) => 0).
    change (dvec (store_const b) 150 c) with 0. real_ops.
    rewrite sumn_R_mult_0_r. rewrite relu_R_nonneg; lra. }
  assert (Htg : transformed_gated (store_const b) (fun _ => 1) = (fun _ => 0)).
  { extensionality c. unfold transformed_gated. rewrite Hg, Ht. real_ops. lra. }
  assert (Hig : identity_gated (store_const b) (fun _ => 1) = (fun _ => 1 / 2)).
  { extensionality c. unfold identity_gated, carry_gate. rewrite Hg.
    unfold one. real_ops. lra. }
  repeat split; trivial.
  extensionality c. unfold l_highway. rewrite Htg, Hig. real_ops. lra.
Qed.

Lemma store_const_l_out (b : R) (e : scope R -> eval_result R) :
  l_out (store_const b) (info_with e) (fun _ => 1 / 2) = fun _ => 1 + b.
Proof.
  extensionality c. unfold l_out, info_with. cbn [info1 String.eqb Ascii.eqb].
  cbv zeta. unfold dot.
  change (dmat (store_const b) 151) with (fun (_ _ : nat) => 2 / INR N_HIDDEN_CNN).
  change (dvec (store_const b) 152 c) with b. real_ops.
  rewrite (sumn_ext _ _ (fun _ => 1 / INR N_HIDDEN_CNN))
    by (intros; real_ops; field; apply not_0_INR; unfold N_HIDDEN_CNN; lia).
  rewrite sumn_R_const_inv by (unfold N_HIDDEN_CNN; lia). reflexivity.
Qed.

(** The raw output of the forward pass on a constant store is [1 + b],
    for every string of the vocabulary. *)
Lemma store_const_forward_result (b : R) (e : scope R -> eval_result R) (N : nat) (x : nat -> nat) :
  forward_result (store_const b) (info_with e) (N + CONV_OFFSET) N x = 1 + b.
Proof.
  unfold forward_result. cbv zeta. rewrite store_const_encoder.
  rewrite (store_const_l_dense b)
    by (intros j Hj; rewrite store_const_l_cnn by (unfold CONV_OFFSET; lia);
        now rewrite (proj2 (Nat.ltb_lt j CNN_WIDTH))).
  destruct (store_const_highway b) as (_ & _ & Hh). rewrite Hh.
  now rewrite store_const_l_out.
Qed.

(** ** The output transform (C7) and NaN (C5) *)

Lemma upd_same {A : Type} (v : vec A) (i : nat) (x : A) : upd v i x i = x.
Proof. unfold upd. now rewrite Nat.eqb_refl. Qed.











(** ** Sums of the relevance rules *)

Lemma sum2_R_plus (n m : nat) (a b : mat R) :
  sum2 n m (fun i j => a i j + b i j) = sum2 n m a + sum2 n m b.
Proof.
  unfold sum2. rewrite <- sumn_R_plus. apply sumn_ext. intros i _.
  apply sumn_R_plus.
Qed.

Lemma sum2_R_0 (n m : nat) : sum2 n m (fun _ _ => 0) = 0.
Proof.
  unfold sum2. rewrite (sumn_ext _ _ (fun _ => 0)) by (intros; apply sumn_R_0).
  apply sumn_R_0.
Qed.

(** A sum over the rows [i <= r < i + stride] of an array with [n] rows *)
Lemma sumn_R_window (n i stride : nat) (h : vec R) :
  (i + stride <= n)%nat ->
  sumn n (fun r => if (i <=? r)%nat && (r <? i + stride)%nat then h (r - i)%nat else 0)
  = sumn stride h.
Proof.
  intros Hn. replace n with (i + (stride + (n - i - stride)))%nat by lia.
  rewrite sumn_R_split, sumn_R_split.
  rewrite (sumn_ext i _ (fun _ => 0)).
  2:{ intros r Hr. now rewrite (proj2 (Nat.leb_gt i r)) by lia. }
  rewrite (sumn_ext stride _ h).
  2:{ intros r Hr. rewrite (proj2 (Nat.leb_le i (i + r))) by lia.
      rewrite (proj2 (Nat.ltb_lt (i + r) (i + stride))) by lia.
      cbn [andb]. f_equal. lia. }
  rewrite (sumn_ext (n - i - stride) _ (fun _ => 0)).
  2:{ intros r Hr. rewrite (proj2 (Nat.ltb_ge (i + (stride + r)) (i + stride))) by lia.
      now rewrite andb_false_r. }
  rewrite !sumn_R_0. lra.
Qed.

Lemma add_rows_sum (n c stride : nat) (y : mat R) (i : nat) (z : vec R) :
  (0 < c)%nat -> (i + stride <= n)%nat ->
  sum2 n c (add_rows c stride y i z) = sum2 n c y + sumn (stride * c) z.
Proof.
  intros Hc Hn.
  rewrite (sumn_ext (stride * c) z (fun r => z (r / c * c + r mod c)%nat)).
  2:{ intros r _. f_equal. rewrite (Nat.div_mod_eq r c) at 1. lia. }
  rewrite (sumn_R_divmod stride c (fun p k => z (p * c + k)%nat)) by trivial.
  rewrite <- (sumn_R_window n i stride
                (fun p => sumn c (fun k => z (p * c + k)%nat))) by trivial.
  unfold sum2. rewrite <- sumn_R_plus. apply sumn_ext. intros r _.
  unfold add_rows.
  destruct ((i <=? r)%nat && (r <? i + stride)%nat).
  - real_ops. apply sumn_R_plus.
  - rewrite Rplus_0_r. reflexivity.
Qed.

(** The relevance the loop of [calcLRPConvStride] accumulates is, in sum,
    that of the windows it visits. *)
Lemma conv_stride_loop_sum (n c m : nat) (l_prev : mat R) (w0 : ten3 R)
    (w1 : vec R) (l_out : mat R) (stride : nat) :
  (0 < c)%nat ->
  sum2 n c (conv_stride_loop n c m l_prev w0 w1 l_out stride)
  = sumn (n - stride - 1)
      (fun i => sumn (stride * c)
                  (calcLRPDenseInner (stride * c) m (window c l_prev i)
                     (reshape_kernel c w0) w1 (l_out i))).
Proof.
  intros Hc. unfold conv_stride_loop. cbv zeta.
  assert (Hgen : forall L, (L <= n - stride - 1)%nat ->
     sum2 n c (for_range L
       (fun i y => add_rows c stride y i
          (calcLRPDenseInner (stride * c) m (window c l_prev i)
             (reshape_kernel c w0) w1 (l_out i))) zeros2)
     = sumn L (fun i => sumn (stride * c)
                  (calcLRPDenseInner (stride * c) m (window c l_prev i)
                     (reshape_kernel c w0) w1 (l_out i)))).
  { induction L as [|L IH]; intros HL.
    - cbn [for_range seq fold_left sumn]. apply sum2_R_0.
    - rewrite for_range_S, add_rows_sum by (trivial; lia).
      rewrite IH by lia. reflexivity. }
  now apply Hgen.
Qed.

Lemma calcLRPPool_sum (n m : nat) (inds : nat -> nat) (R : vec R) :
  (forall o, (o < m)%nat -> (inds o < n)%nat) ->
  sum2 n m (calcLRPPool m inds R) = sumn m R.
Proof.
  intros Hin. unfold sum2. rewrite sumn_R_exchange.
  apply sumn_ext. intros o Ho.
  rewrite (sumn_R_single n (inds o)).
  - now rewrite calcLRPPool_entry, (proj2 (Nat.ltb_lt o m)), Nat.eqb_refl.
  - now apply Hin.
  - intros r Hr. rewrite calcLRPPool_entry.
    now rewrite (proj2 (Nat.eqb_neq r (inds o))), andb_false_r.
Qed.

Lemma calcLRPConv_row {A : Type} `{Scalar A} (n p m : nat) (l_prev : mat A)
    (w0 : mat A) (w1 : vec A) (l_out : mat A) (i : nat) :
  calcLRPConv n p m l_prev w0 w1 l_out i
  = if (i <? n)%nat then calcLRPDenseInner p m (l_prev i) w0 w1 (l_out i)
    else zeros.
Proof.
  unfold calcLRPConv.
  now rewrite (for_range_rows n
                 (fun i => calcLRPDenseInner p m (l_prev i) w0 w1 (l_out i)) zeros2 i).
Qed.

(** The sum of the twelve relevance maps *)
Lemma sum2_fold_plus (n m : nat) (l : list conv_spec) (f : conv_spec -> mat R)
    (init : mat R) :
  sum2 n m (fold_left (fun acc s => fun i c => acc i c [+] f s i c) l init)
  = sum2 n m init + fold_right (fun s acc => sum2 n m (f s) + acc) 0 l.
Proof.
  revert init. induction l as [|s l IH]; intros init; cbn [fold_left fold_right].
  - lra.
  - rewrite IH. real_ops. rewrite sum2_R_plus. lra.
Qed.

(** ** The relevance pass on the constant store *)

(** Side conditions of [field]: sizes and the stabiliser are not zero. *)
Ltac nonzero :=
  repeat split;
  first [ apply not_0_INR; unfold N_HIDDEN_CNN, CNN_WIDTH, EMBEDDING_SIZE; lia
        | pose proof eps32_pos; lra ].

Lemma store_const_R_highway (b : R) (out : vec R) :
  out 0%nat = 1 + b -> 1 + b <> 0 ->
  R_highway (store_const b) (fun _ => 1 / 2) out = fun _ => 1 / INR N_HIDDEN_CNN.
Proof.
  intros Hout Hb. extensionality k. unfold R_highway, calcLRPDenseOut. cbv zeta.
  change (dmat (store_const b) 151) with (fun (_ _ : nat) => 2 / INR N_HIDDEN_CNN).
  change (dvec (store_const b) 152) with (fun _ : nat => b).
  cbn [sumn]. unfold zero. real_ops. rewrite Hout.
  rewrite (sumn_ext _ _ (fun _ => 1 / INR N_HIDDEN_CNN))
    by (intros; real_ops; field; apply not_0_INR; unfold N_HIDDEN_CNN; lia).
  rewrite sumn_R_const_inv by (unfold N_HIDDEN_CNN; lia).
  field. split; [apply not_0_INR; unfold N_HIDDEN_CNN; lia|exact Hb].
Qed.

Lemma store_const_R_input_highway (b : R) (R_hw : vec R) :
  R_input_highway (store_const b) (fun _ => 1) R_hw = R_hw.
Proof.
  destruct (store_const_highway b) as (Htg & Hig & Hh).
  extensionality c.
  unfold R_input_highway, R_identity, R_dense_high3, R_transformed_gated,
    calcLRPAddition.
  rewrite Hig, Hh. cbn [fst snd]. unfold calcLRPDenseInner. cbv zeta.
  unfold zero. real_ops.
  destruct (Req_dec_T (1 / 2) 0) as [Hz|_]; [lra|].
  rewrite (sumn_ext N_HIDDEN_CNN _ (fun _ => 0)).
  - rewrite sumn_R_0. field.
  - intros j _. real_ops. 
    replace (R_hw j - R_hw j * (1 / 2 / (1 / 2))) with 0 by (field).
    lra.
Qed.

Lemma store_const_R_cnn_flat (b : R) (cnn : vec R) (p : nat) :
  (forall j, (j < CNN_WIDTH)%nat -> cnn j = 1) ->
  (p < CNN_WIDTH)%nat ->
  R_cnn_flat (store_const b) cnn (fun _ => 1 / INR N_HIDDEN_CNN) p = rho.
Proof.
  intros Hc Hp. unfold R_cnn_flat, calcLRPDenseInner. cbv zeta.
  change (dmat (store_const b) 145) with (fun (_ _ : nat) => 1 / INR CNN_WIDTH).
  change (dvec (store_const b) 146) with (fun _ : nat => 0).
  real_ops. rewrite dot_l_cnn_const by trivial. rewrite (Hc p Hp).
  rewrite sumn_R_const. unfold rho. pose proof eps32_pos.
  field. nonzero.
Qed.

(** The inner dense rule on all-one activations, a constant kernel
    [1 / p] and a zero bias *)
Lemma dense_inner_const (p m : nat) (l_next : vec R) (k : nat) :
  (0 < p)%nat ->
  calcLRPDenseInner p m (fun _ => 1) (fun _ _ => 1 / INR p) (fun _ => 0) l_next k
  = sumn m l_next * (1 / INR p / (1 + lit_1em32)).
Proof.
  intros Hp. unfold calcLRPDenseInner. cbv zeta. real_ops.
  rewrite (sumn_ext p _ (fun _ => 1 / INR p)) by (intros; lra).
  rewrite sumn_R_const_inv by trivial.
  rewrite <- sumn_R_scal_r. apply sumn_ext. intros j _.
  field. nonzero.
Qed.

Lemma conv_strided_offset (s : conv_spec) (o : nat) :
  In s conv_strided -> (o < channels s)%nat -> (offset s + o < CNN_WIDTH)%nat.
Proof.
  intros Hs Ho.
  assert (Hfit : (offset s + channels s <= CNN_WIDTH)%nat).
  { revert s Hs Ho. each_conv; intros _; apply Nat.leb_le; vm_compute; reflexivity. }
  lia.
Qed.

Section ConstRelevance.
Variable b : R.
Variable NN : nat.
Variable R : vec R.
Hypothesis HNN : (22 <= NN)%nat.
Hypothesis HR : forall p, (p < CNN_WIDTH)%nat -> R p = rho.

Lemma store_const_d_k (s : conv_spec) (r o : nat) :
  In s conv_strided ->
  d_k (store_const b) NN (fun _ _ => 1) R s r o
  = if (o <? channels s)%nat && (r =? 0)%nat then rho else 0.
Proof.
  intros Hs. unfold d_k. rewrite calcLRPPool_entry.
  destruct (store_const_max_k b NN s o) as [_ Hm]; [lia|trivial|]. rewrite Hm.
  destruct (Nat.ltb_spec o (channels s)) as [Ho|Ho]; cbn [andb]; [|reflexivity].
  destruct (r =? 0)%nat; [|reflexivity].
  unfold slice_from. apply HR. now apply conv_strided_offset.
Qed.

Lemma store_const_d_k_sum (s : conv_spec) :
  In s conv_strided ->
  sum2 NN (channels s) (d_k (store_const b) NN (fun _ _ => 1) R s)
  = INR (channels s) * rho.
Proof.
  intros Hs. unfold d_k. rewrite calcLRPPool_sum.
  - rewrite (sumn_ext _ _ (fun _ => rho)).
    + apply sumn_R_const.
    + intros o Ho. unfold slice_from. apply HR. now apply conv_strided_offset.
  - intros o _. destruct (store_const_max_k b NN s o) as [_ Hm]; [lia|trivial|].
    rewrite Hm. lia.
Qed.

Lemma store_const_loop_sum (s : conv_spec) :
  In s conv_strided ->
  sum2 NN EMBEDDING_SIZE
    (conv_stride_loop NN EMBEDDING_SIZE (channels s) (fun _ _ => 1)
       (store_const b (widx s)) (dvec (store_const b) (widx s + 1))
       (d_k (store_const b) NN (fun _ _ => 1) R s) (width s))
  = INR (channels s) * rho / (1 + lit_1em32).
Proof.
  intros Hs. pose proof (conv_strided_width s Hs) as Hw.
  destruct (store_const_kernel b s Hs) as [Hk Hb].
  rewrite conv_stride_loop_sum by (unfold EMBEDDING_SIZE; lia).
  unfold dvec. rewrite Hk, Hb.
  rewrite (sumn_ext _ _
             (fun i => if (i =? 0)%nat
                       then INR (channels s) * rho / (1 + lit_1em32) else 0)).
  - rewrite (sumn_R_single _ 0%nat); trivial; [lia|].
    intros k Hk0. now rewrite (proj2 (Nat.eqb_neq k 0)).
  - intros i Hi.
    rewrite (sumn_ext _ _
               (fun _ => sumn (channels s)
                           (d_k (store_const b) NN (fun _ _ => 1) R s i)
                         * (1 / INR (width s * EMBEDDING_SIZE) / (1 + lit_1em32)))).
    2:{ intros r _.
        apply (dense_inner_const (width s * EMBEDDING_SIZE) (channels s)).
        unfold EMBEDDING_SIZE. lia. }
    rewrite sumn_R_const.
    rewrite (sumn_ext (channels s) _ (fun _ => if (i =? 0)%nat then rho else 0)).
    2:{ intros o Ho. rewrite store_const_d_k by trivial.
        now rewrite (proj2 (Nat.ltb_lt o (channels s))). }
    rewrite sumn_R_const. destruct (i =? 0)%nat.
    + field. nonzero.
    + lra.
Qed.

Lemma rho_pos : 0 < rho.
Proof.
  unfold rho. pose proof eps32_pos.
  assert (0 < INR CNN_WIDTH) by (apply lt_0_INR; unfold CNN_WIDTH; lia).
  apply Rdiv_lt_0_compat; [|lra]. apply Rdiv_lt_0_compat; lra.
Qed.

Lemma store_const_R_cnn_k_sum (s : conv_spec) :
  In s conv_strided ->
  sum2 NN EMBEDDING_SIZE (R_cnn_k (store_const b) NN (fun _ _ => 1) R s)
  = INR (channels s) * rho.
Proof.
  intros Hs. unfold R_cnn_k. rewrite conv_stride_rescale_sum.
  - now apply store_const_d_k_sum.
  - rewrite store_const_loop_sum by trivial.
    pose proof rho_pos. pose proof eps32_pos.
    assert (0 < INR (channels s)).
    { apply lt_0_INR. revert s Hs. each_conv; cbn; lia. }
    apply Rgt_not_eq. apply Rdiv_lt_0_compat; [|lra].
    now apply Rmult_lt_0_compat.
Qed.

Lemma store_const_R_cnn_1_sum :
  sum2 NN EMBEDDING_SIZE (R_cnn_1 (store_const b) NN (fun _ _ => 1) R)
  = 100 * rho / (1 + lit_1em32).
Proof.
  unfold R_cnn_1, sum2.
  rewrite (sumn_ext _ _
             (fun i => if (i =? 0)%nat then 100 * rho / (1 + lit_1em32) else 0)).
  - rewrite (sumn_R_single _ 0%nat); trivial; [lia|].
    intros k Hk0. now rewrite (proj2 (Nat.eqb_neq k 0)).
  - intros i Hi. rewrite calcLRPConv_row. rewrite (proj2 (Nat.ltb_lt i NN)) by trivial.
    change (dmat (store_const b) 121) with (fun (_ _ : nat) => 1 / INR EMBEDDING_SIZE).
    change (dvec (store_const b) 122) with (fun _ : nat => 0).
    rewrite (sumn_ext _ _
               (fun _ => sumn 100 (d_1 (store_const b) NN (fun _ _ => 1) R i)
                         * (1 / INR EMBEDDING_SIZE / (1 + lit_1em32)))).
    2:{ intros r _. apply (dense_inner_const EMBEDDING_SIZE 100).
        unfold EMBEDDING_SIZE. lia. }
    rewrite sumn_R_const.
    rewrite (sumn_ext 100 _ (fun _ => if (i =? 0)%nat then rho else 0)).
    2:{ intros o Ho. unfold d_1. rewrite calcLRPPool_entry.
        destruct (store_const_max_1 b NN o) as [_ Hm]. rewrite Hm.
        rewrite (proj2 (Nat.ltb_lt o 100)) by trivial. cbn [andb].
        destruct (i =? 0)%nat; [|reflexivity].
        unfold slice_from. apply HR. unfold CNN_WIDTH. lia. }
    rewrite sumn_R_const. destruct (i =? 0)%nat.
    + replace (INR 100) with 100 by (cbn; lra).
      field. nonzero.
    + lra.
Qed.

End ConstRelevance.

(** Over the reals no value is a NaN, so no check exits and the relevance
    pass returns its triple; this is the behaviour of the source where no
    rule divides by zero. *)
Lemma explain_R (d : store R) (NN : nat) (l_embed : mat R)
    (cnn dense highway out : vec R) :
  explain d NN l_embed cnn dense highway out
  = let R_all :=
      R_cnn d NN l_embed
        (R_cnn_flat d cnn (R_input_highway d dense (R_highway d highway out))) in
    Explained (out 0%nat) (fun i => sumn EMBEDDING_SIZE (R_all i))
      (sumn 1 out - sum2 NN EMBEDDING_SIZE R_all).
Proof. reflexivity. Qed.

Lemma fold_right_channels (l : list conv_spec) (g : conv_spec -> R) (c : R) :
  (forall s, In s l -> g s = INR (channels s) * c) ->
  fold_right (fun s acc => g s + acc) 0 l
  = INR (fold_right (fun s acc => (channels s + acc)%nat) 0%nat l) * c.
Proof.
  induction l as [|s l IH]; intros Hg; cbn [fold_right].
  - cbn. lra.
  - rewrite IH by (intros; apply Hg; now right).
    rewrite (Hg s) by now left. rewrite plus_INR. lra.
Qed.

(** The relevance that reaches the characters on the constant store with
    output bias 1: less than 1, of a score of 2. *)
Lemma store_const_relevance_total (NN : nat) (out : vec R) :
  (22 <= NN)%nat -> out 0%nat = 1 + 1 ->
  sum2 NN EMBEDDING_SIZE
    (R_cnn (store_const 1) NN (fun _ _ => 1)
       (R_cnn_flat (store_const 1) (l_cnn (store_const 1) NN (fun _ _ => 1))
          (R_input_highway (store_const 1) (fun _ => 1)
             (R_highway (store_const 1) (fun _ => 1 / 2) out))))
  = 100 * rho / (1 + lit_1em32) + 1620 * rho.
Proof.
  intros HNN Hout.
  rewrite store_const_R_highway by (trivial; lra).
  rewrite store_const_R_input_highway.
  set (R := R_cnn_flat _ _ _).
  assert (HR : forall p, (p < CNN_WIDTH)%nat -> R p = rho).
  { intros p Hp. unfold R. apply store_const_R_cnn_flat; trivial.
    intros j Hj. rewrite store_const_l_cnn by lia.
    now rewrite (proj2 (Nat.ltb_lt j CNN_WIDTH)). }
  unfold R_cnn. rewrite sum2_fold_plus.
  rewrite store_const_R_cnn_1_sum by trivial.
  rewrite (fold_right_channels conv_strided _ rho)
    by (intros s Hs; now apply store_const_R_cnn_k_sum).
  f_equal. f_equal.
  rewrite INR_IZR_INZ. f_equal.
Qed.

Lemma relevance_total_below_one : 100 * rho / (1 + lit_1em32) + 1620 * rho <= 1.
Proof.
  unfold rho. replace (INR CNN_WIDTH) with 1720
    by (unfold CNN_WIDTH; rewrite INR_IZR_INZ; reflexivity).
  pose proof eps32_pos as He.
  set (t := / (1 + lit_1em32)).
  assert (Ht : 0 < t <= 1).
  { unfold t. split.
    - apply Rinv_0_lt_compat. lra.
    - rewrite <- Rinv_1. apply Rinv_le_contravar; lra. }
  replace (100 * (1 / 1720 / (1 + lit_1em32)) / (1 + lit_1em32)
           + 1620 * (1 / 1720 / (1 + lit_1em32)))
    with (100 / 1720 * (t * t) + 1620 / 1720 * t)
    by (unfold t; field; lra).
  assert (t * t <= 1) by nra. lra.
Qed.

Lemma store_const_explained (x : nat -> nat) :
  tokens "CC" = inr x ->
  exists scores delta,
    calcQSAR (store_const 1) (info_with expr_result) "CC" 30 true
    = Explained 2 scores delta
    /\ sumn 22 scores = 100 * rho / (1 + lit_1em32) + 1620 * rho.
Proof.
  intros Hx. unfold calcQSAR. rewrite Hx. cbv zeta.
  change (String.length "CC" + CONV_OFFSET)%nat with (2 + CONV_OFFSET)%nat.
  rewrite store_const_encoder.
  assert (Hcnn : forall j, (j < CNN_WIDTH)%nat ->
            l_cnn (store_const 1) (2 + CONV_OFFSET) (fun _ _ => 1) j = 1).
  { intros j Hj. rewrite store_const_l_cnn by (unfold CONV_OFFSET; lia).
    now rewrite (proj2 (Nat.ltb_lt j CNN_WIDTH)). }
  rewrite (store_const_l_dense 1 _ Hcnn).
  destruct (store_const_highway 1) as (_ & _ & Hh). rewrite Hh.
  rewrite store_const_l_out.
  cbn [info_with info2]. unfold expr_result. cbn [sc_result negb].
  rewrite explain_R. cbv zeta. rewrite upd_same.
  replace (1 + 1) with 2 by lra.
  eexists. eexists. split.
  - reflexivity.
  - change (sumn 22 (fun i => sumn EMBEDDING_SIZE (?f i)))
      with (sum2 22 EMBEDDING_SIZE f).
    apply (store_const_relevance_total (2 + CONV_OFFSET)).
    + unfold CONV_OFFSET. lia.
    + apply upd_same.
Qed.

(** ** Padding and the score (C6) *)




















Lemma fold_right_plus_ext (l : list conv_spec) (g h : conv_spec -> R) :
  (forall s, In s l -> g s = h s) ->
  fold_right (fun s acc => g s + acc) 0 l = fold_right (fun s acc => h s + acc) 0 l.
Proof.
  induction l as [|s l IH]; intros Hg; cbn [fold_right].
  - reflexivity.
  - rewrite IH by (intros; apply Hg; now right). rewrite (Hg s) by now left.
    reflexivity.
Qed.






(** A loop whose pass [i] rewrites row [i] from row [i] of the array as it
    then is: the row is still the one the loop started from. *)
Lemma for_range_rows_local {A : Type} (n : nat) (G : nat -> vec A -> vec A)
    (init : mat A) (i : nat) :
  for_range n (fun i y => upd_row y i (G i (y i))) init i
  = if (i <? n)%nat then G i (init i) else init i.
Proof.
  induction n as [|n IH].
  - reflexivity.
  - rewrite for_range_S. unfold upd_row at 1.
    destruct (Nat.eqb_spec i n) as [->|Hne].
    + rewrite IH. rewrite (proj2 (Nat.ltb_ge n n)) by lia.
      now rewrite (proj2 (Nat.ltb_lt n (S n))) by lia.
    + rewrite IH. destruct (Nat.ltb_spec i n), (Nat.ltb_spec i (S n)); trivial; lia.
Qed.

Lemma attention_weights_row (NN N : nat) (X K Q : mat R) (i : nat) :
  attention_weights NN N X K Q i
  = if (i <? NN)%nat
    then fun j => masked_scores N X K Q i j / sumn NN (masked_scores N X K Q i)
    else masked_scores N X K Q i.
Proof.
  unfold attention_weights. cbv zeta.
  exact (for_range_rows_local NN (fun _ row j => row j [/] sumn NN row)
           (masked_scores N X K Q) i).
Qed.














(* ================================================================= *)
(** * Further properties of the relevance rules *)

(** X1. The outer dense rule hands the share of the bias to no input: with
    [T] the weighted sum of the inputs and [b] the bias, the redistributed
    relevance sums to [l_next * T / (T + b)] whenever the denominator
    [T + b] is not zero. *)
Theorem calcLRPDenseOut_sum (p : nat) (l_previous : vec R) (w0 : mat R)
    (w1 l_next : vec R) :
  let T := sumn p (fun k => w0 k 0%nat * l_previous k) in
  T + w1 0%nat <> 0 ->
  sumn p (calcLRPDenseOut p l_previous w0 w1 l_next)
  = l_next 0%nat * (T / (T + w1 0%nat)).
Proof.
  intros T HT. unfold calcLRPDenseOut. cbv zeta. cbn [sumn]. unfold zero. real_ops.
  fold T.
  rewrite (sumn_ext _ _ (fun k => (w0 k 0%nat * l_previous k) * (l_next 0%nat / (T + w1 0%nat)))).
  - rewrite sumn_R_scal_r. fold T. field. exact HT.
  - intros k _. field. exact HT.
Qed.

Lemma calcLRPDenseOut_sum_witness :
  sumn 2 (calcLRPDenseOut 2 (fun _ => 1) (fun _ _ => 1) (fun _ => 2) (fun _ => 4))
  = 4 * (sumn 2 (fun k => 1 * 1) / (sumn 2 (fun k => 1 * 1) + 2)).
Proof.
  apply (calcLRPDenseOut_sum 2 (fun _ => 1) (fun _ _ => 1) (fun _ => 2) (fun _ => 4)).
  cbn. unfold zero. real_ops. lra.
Defined.

(** X2. The inner dense rule gives every output unit [j] the share
    [S j / (S j + b j + 1e-32)] of its relevance to the inputs, [S j] being
    the weighted sum of the inputs: the rest stays with the bias and the
    stabiliser. *)
Theorem calcLRPDenseInner_sum (p m : nat) (l_previous : vec R) (w0 : mat R)
    (w1 l_next : vec R) :
  let S := fun j => sumn p (fun k => l_previous k * w0 k j) in
  (forall j, (j < m)%nat -> S j + w1 j + lit_1em32 <> 0) ->
  sumn p (calcLRPDenseInner p m l_previous w0 w1 l_next)
  = sumn m (fun j => l_next j * (S j / (S j + w1 j + lit_1em32))).
Proof.
  intros S Hz. unfold calcLRPDenseInner. cbv zeta. real_ops.
  rewrite sumn_R_exchange. apply sumn_ext. intros j Hj. fold (S j).
  rewrite sumn_R_scal_l. f_equal.
  unfold Rdiv. rewrite sumn_R_scal_r. reflexivity.
Qed.

Lemma calcLRPDenseInner_sum_witness :
  sumn 2 (calcLRPDenseInner 2 1 (fun _ => 1) (fun _ _ => 1) (fun _ => 0) (fun _ => 3))
  = sumn 1 (fun j => 3 * (sumn 2 (fun k => 1 * 1)
                          / (sumn 2 (fun k => 1 * 1) + 0 + lit_1em32))).
Proof.
  apply (calcLRPDenseInner_sum 2 1 (fun _ => 1) (fun _ _ => 1) (fun _ => 0) (fun _ => 3)).
  intros j _. cbn. unfold zero, lit_1em32, one. real_ops. lra.
Defined.

(** X3. The convolution rule of width 1 is the inner dense rule at every
    position: row [i < n] of the result is [calcLRPDenseInner] of row [i]
    of the activations and of the relevance, and no other row is
    written. *)
Theorem calcLRPConv_rowwise {A : Type} `{Scalar A} (n p m : nat) (l_prev : mat A)
    (w0 : mat A) (w1 : vec A) (l_out : mat A) (i : nat) :
  calcLRPConv n p m l_prev w0 w1 l_out i
  = if (i <? n)%nat then calcLRPDenseInner p m (l_prev i) w0 w1 (l_out i)
    else zeros.
Proof. apply calcLRPConv_row. Qed.

(** The rows the loop of [calcLRPConvStride] never reaches *)
Lemma conv_stride_loop_tail {A : Type} `{Scalar A} (n c m : nat) (l_prev : mat A)
    (w0 : ten3 A) (w1 : vec A) (l_out : mat A) (stride r k : nat) :
  (n <= r + 2)%nat ->
  conv_stride_loop n c m l_prev w0 w1 l_out stride r k = zero.
Proof.
  intros Hr. unfold conv_stride_loop. cbv zeta.
  assert (Hgen : forall L, (L <= n - stride - 1)%nat ->
     for_range L
       (fun i y => add_rows c stride y i
          (calcLRPDenseInner (stride * c) m (window c l_prev i)
             (reshape_kernel c w0) w1 (l_out i))) zeros2 r k = zero).
  { induction L as [|L IH]; intros HL.
    - reflexivity.
    - rewrite for_range_S. unfold add_rows at 1.
      rewrite (proj2 (Nat.ltb_ge r (L + stride))) by lia.
      rewrite andb_false_r. apply IH. lia. }
  now apply Hgen.
Qed.

(** X4. Whatever the stride and the arithmetic, the loop of
    [calcLRPConvStride] writes nothing to the last two rows: the array it
    accumulates still holds the [0.0] of [np.zeros_like] there.  In real
    arithmetic, when the accumulated sum [s] is not zero, the rescaled
    result is zero there as well. *)
Theorem calcLRPConvStride_last_rows (n c n_out m stride r k : nat) :
  (n <= r + 2)%nat ->
  (forall (A : Type) (SA : Scalar A) (l_prev : mat A) (w0 : ten3 A) (w1 : vec A)
          (l_out : mat A),
     conv_stride_loop n c m l_prev w0 w1 l_out stride r k = zero)
  /\ (forall (l_prev : mat R) (w0 : ten3 R) (w1 : vec R) (l_out : mat R),
        sum2 n c (conv_stride_loop n c m l_prev w0 w1 l_out stride) <> 0 ->
        calcLRPConvStride n c n_out m l_prev w0 w1 l_out stride r k = 0).
Proof.
  intros Hr. split.
  - intros A SA l_prev w0 w1 l_out.
    exact (conv_stride_loop_tail n c m l_prev w0 w1 l_out stride r k Hr).
  - intros l_prev w0 w1 l_out _. unfold calcLRPConvStride. cbv zeta.
    rewrite conv_stride_loop_tail by trivial.
    unfold zero. real_ops. unfold Rdiv. ring.
Qed.

Lemma calcLRPConvStride_last_rows_witness :
  conv_stride_loop (A:=R) 4 1 1 toy_ones toy_kernel toy_bias (toy_rel_below 4) 2 2%nat 0%nat = 0
  /\ calcLRPConvStride (A:=R) 4 1 4 1 toy_ones toy_kernel toy_bias (toy_rel_below 4) 2
       2%nat 0%nat = 0.
Proof.
  destruct (calcLRPConvStride_last_rows 4 1 4 1 2 2 0) as [Hloop Hres]; [lia|].
  split.
  - apply Hloop.
  - apply Hres. unfold_toy. cbn. lra.
Defined.

(** X5. The overlapping windows lose nothing: the relevance the loop of
    [calcLRPConvStride] accumulates is, in sum, the relevance the inner
    dense rule returns for the windows [i < n - stride - 1]. *)
Theorem calcLRPConvStride_accumulates (n c m : nat) (l_prev : mat R) (w0 : ten3 R)
    (w1 : vec R) (l_out : mat R) (stride : nat) :
  (0 < c)%nat ->
  sum2 n c (conv_stride_loop n c m l_prev w0 w1 l_out stride)
  = sumn (n - stride - 1)
      (fun i => sumn (stride * c)
                  (calcLRPDenseInner (stride * c) m (window c l_prev i)
                     (reshape_kernel c w0) w1 (l_out i))).
Proof. apply conv_stride_loop_sum. Qed.

Lemma calcLRPConvStride_accumulates_witness :
  sum2 4 1 (conv_stride_loop 4 1 1 toy_ones toy_kernel toy_bias (toy_rel (A:=R) 0) 2)
  = sumn (4 - 2 - 1)
      (fun i => sumn (2 * 1)
                  (calcLRPDenseInner (2 * 1) 1 (window 1 toy_ones i)
                     (reshape_kernel 1 toy_kernel) toy_bias (toy_rel 0 i))).
Proof.
  apply (calcLRPConvStride_accumulates 4 1 1 toy_ones toy_kernel toy_bias (toy_rel 0) 2).
  lia.
Defined.

(** X6. The loop of [calcLRPConvStride] reads the relevance of the windows
    [i < n - stride - 1] only: two relevance arrays that agree on these
    rows accumulate the same array, whatever they hold at the later
    windows. *)
Theorem calcLRPConvStride_reads {A : Type} `{Scalar A} (n c m : nat)
    (l_prev : mat A) (w0 : ten3 A) (w1 : vec A) (l_out l_out' : mat A)
    (stride : nat) :
  (forall i, (i < n - stride - 1)%nat -> l_out i = l_out' i) ->
  conv_stride_loop n c m l_prev w0 w1 l_out stride
  = conv_stride_loop n c m l_prev w0 w1 l_out' stride.
Proof. apply conv_stride_loop_reads. Qed.

Lemma calcLRPConvStride_reads_witness :
  conv_stride_loop 4 1 1 toy_ones toy_kernel toy_bias (toy_rel (A:=R) 1) 2
  = conv_stride_loop 4 1 1 toy_ones toy_kernel toy_bias (toy_rel (A:=R) 2) 2.
Proof.
  apply (calcLRPConvStride_reads 4 1 1 toy_ones toy_kernel toy_bias
           (toy_rel 1) (toy_rel 2) 2).
  intros i Hi. assert (i = 0%nat) as -> by (cbn in Hi; lia). reflexivity.
Defined.

(* ================================================================= *)
(** * Further properties of the forward pass *)

Lemma np_max2_R (a b : R) : np_max2 a b = if Rlt_dec a b then b else a.
Proof. unfold np_max2. real_ops. destruct (Rlt_dec a b); reflexivity. Qed.

Lemma argmax_moves_R (a b : R) : argmax_moves a b = if Rlt_dec a b then true else false.
Proof. unfold argmax_moves. real_ops. destruct (Rlt_dec a b); reflexivity. Qed.

Lemma argmax_upto_le {A : Type} `{Scalar A} (k : nat) (f : vec A) :
  (argmax_upto k f <= k)%nat.
Proof.
  induction k as [|k IH]; cbn [argmax_upto].
  - lia.
  - cbv zeta. destruct (argmax_moves _ _); lia.
Qed.

(** X7. Max-pooling and its recorded position agree: over the entries
    [0 .. k], the recorded index is in range, the pooled value is the entry
    at that index, no entry exceeds it, and every earlier entry is
    strictly smaller (the first maximum is recorded). *)
Theorem argmax_is_first_max (k : nat) (f : vec R) :
  (argmax_upto k f <= k)%nat
  /\ f (argmax_upto k f) = max_upto k f
  /\ (forall i, (i <= k)%nat -> f i <= max_upto k f)
  /\ (forall i, (i < argmax_upto k f)%nat -> f i < max_upto k f).
Proof.
  induction k as [|k (Hle & Hval & Hmax & Hfirst)]; cbn [argmax_upto max_upto].
  - repeat split; trivial.
    + intros i Hi. assert (i = 0%nat) as -> by lia. lra.
    + intros i Hi. lia.
  - cbv zeta. rewrite argmax_moves_R, np_max2_R, Hval.
    destruct (Rlt_dec (max_upto k f) (f (S k))) as [Hlt|Hge].
    + repeat split; trivial.
      * intros i Hi. destruct (Nat.eq_dec i (S k)) as [->|Hne]; [lra|].
        specialize (Hmax i ltac:(lia)). lra.
      * intros i Hi. specialize (Hmax i ltac:(lia)). lra.
    + repeat split; trivial.
      * lia.
      * intros i Hi. destruct (Nat.eq_dec i (S k)) as [->|Hne]; [lra|].
        apply Hmax. lia.
Qed.

Lemma max_k_in_range (d : store R) (NN : nat) (l_embed : mat R) (s : conv_spec)
    (o : nat) :
  (0 < NN)%nat -> (max_k d NN l_embed s o < NN)%nat.
Proof.
  intros HNN. unfold max_k, argmax_axis0.
  pose proof (argmax_upto_le (NN - (width s - 1) - 1)
                (fun i => lc_k d NN l_embed s i o)). lia.
Qed.

Lemma slices_tile (R : vec R) (l : list conv_spec) (a : nat) :
  consecutive a l ->
  sumn (fold_right (fun s acc => (channels s + acc)%nat) 0%nat l) (slice_from a R)
  = fold_right (fun s acc => sumn (channels s) (slice_from (offset s) R) + acc) 0 l.
Proof.
  revert a. induction l as [|s l IH]; intros a Hc; cbn [fold_right consecutive] in *.
  - reflexivity.
  - destruct Hc as [Ha Hc]. rewrite sumn_R_split, Ha. f_equal.
    rewrite <- (IH _ Hc). apply sumn_ext. intros i _. unfold slice_from.
    f_equal. lia.
Qed.

Lemma conv_strided_consecutive : consecutive 100 conv_strided.
Proof. cbn [consecutive conv_strided offset channels]. repeat split. Qed.

Lemma max_1_in_range (d : store R) (NN : nat) (l_embed : mat R) (o : nat) :
  (0 < NN)%nat -> (max_1 d NN l_embed o < NN)%nat.
Proof.
  intros HNN. unfold max_1, argmax_axis0.
  pose proof (argmax_upto_le (NN - 1) (fun i => lc_1 d l_embed i o)). lia.
Qed.

(** The twelve de-pooled arrays sum to the sum of the relevance of the
    concatenated vector. *)
Lemma demaxpool_sum (d : store R) (NN : nat) (l_embed : mat R) (R : vec R) :
  (0 < NN)%nat ->
  sum2 NN 100 (d_1 d NN l_embed R)
  + fold_right (fun s acc => sum2 NN (channels s) (d_k d NN l_embed R s) + acc)
      0 conv_strided
  = sumn CNN_WIDTH R.
Proof.
  intros HNN.
  rewrite (fold_right_plus_ext conv_strided _
             (fun s => sumn (channels s) (slice_from (offset s) R))).
  2:{ intros s _. unfold d_k. apply calcLRPPool_sum.
      intros o _. now apply max_k_in_range. }
  unfold d_1. rewrite calcLRPPool_sum by (intros o _; now apply max_1_in_range).
  rewrite <- (slices_tile R conv_strided 100 conv_strided_consecutive).
  change CNN_WIDTH
    with (100 + fold_right (fun s acc => (channels s + acc)%nat) 0%nat conv_strided)%nat.
  rewrite sumn_R_split. reflexivity.
Qed.

(** X8. In real arithmetic, where the store into the float32 array of
    [calcLRPPool] rounds nothing, de-pooling in [calcQSAR] conserves
    relevance: the twelve slices [R_cnn[:100]], [R_cnn[100:300]], ...,
    [R_cnn[1560:]] tile the 1720 entries of the relevance of the
    concatenated vector, every recorded argmax is a row of the de-pooled
    array, and so the twelve de-pooled arrays sum to the sum of that
    relevance. *)
Theorem demaxpool_conserves (d : store R) (NN : nat) (l_embed : mat R) (R : vec R) :
  (0 < NN)%nat ->
  sum2 NN 100 (d_1 d NN l_embed R)
  + fold_right (fun s acc => sum2 NN (channels s) (d_k d NN l_embed R s) + acc)
      0 conv_strided
  = sumn CNN_WIDTH R.
Proof. apply demaxpool_sum. Qed.

Lemma demaxpool_conserves_witness :
  sum2 22 100 (d_1 (store_const 1) 22 (fun _ _ => 1) (fun _ => 1))
  + fold_right
      (fun s acc => sum2 22 (channels s)
                      (d_k (store_const 1) 22 (fun _ _ => 1) (fun _ => 1) s) + acc)
      0 conv_strided
  = sumn CNN_WIDTH (fun _ => 1).
Proof.
  apply (demaxpool_conserves (store_const 1) 22 (fun _ _ => 1) (fun _ => 1)). lia.
Defined.

Lemma sumn_R_nonneg (n : nat) (f : vec R) :
  (forall j, (j < n)%nat -> 0 <= f j) -> 0 <= sumn n f.
Proof.
  induction n as [|n IH]; intros Hf.
  - cbn. unfold zero. real_ops. lra.
  - rewrite sumn_R_S. specialize (Hf n ltac:(lia)) as Hn.
    assert (0 <= sumn n f) by (apply IH; intros; apply Hf; lia). lra.
Qed.

Lemma sumn_R_pos (n j0 : nat) (f : vec R) :
  (forall j, (j < n)%nat -> 0 <= f j) -> (j0 < n)%nat -> 0 < f j0 -> 0 < sumn n f.
Proof.
  induction n as [|n IH]; intros Hf Hj Hpos.
  - lia.
  - rewrite sumn_R_S. destruct (Nat.eq_dec j0 n) as [->|Hne].
    + assert (0 <= sumn n f) by (apply sumn_R_nonneg; intros; apply Hf; lia). lra.
    + assert (0 < sumn n f) by (apply IH; trivial; [intros; apply Hf; lia|lia]).
      specialize (Hf n ltac:(lia)). lra.
Qed.

Lemma masked_scores_nonneg (N : nat) (X K Q : mat R) (i j : nat) :
  0 <= masked_scores N X K Q i j.
Proof.
  unfold masked_scores, left_mask, zero, one. real_ops.
  match goal with |- 0 <= exp ?a * _ => pose proof (exp_pos a) end.
  destruct (j <? N)%nat; nra.
Qed.

Lemma masked_scores_sum_pos (NN N : nat) (X K Q : mat R) (i : nat) :
  (0 < N <= NN)%nat -> 0 < sumn NN (masked_scores N X K Q i).
Proof.
  intros HN. apply (sumn_R_pos NN 0).
  - intros j _. apply masked_scores_nonneg.
  - lia.
  - unfold masked_scores, left_mask, one. real_ops.
    rewrite (proj2 (Nat.ltb_lt 0 N)) by lia.
    match goal with |- 0 < exp ?a * _ => pose proof (exp_pos a) end. lra.
Qed.

(** X9. Every row of the attention weights of a head is a distribution
    over the valid positions: for a non-empty string the weights of a row
    [i < NN] are non-negative and sum to one. *)
Theorem attention_rows_sum_to_one (NN N : nat) (X K Q : mat R) (i : nat) :
  (0 < N <= NN)%nat -> (i < NN)%nat ->
  (forall j, 0 <= attention_weights NN N X K Q i j)
  /\ sumn NN (attention_weights NN N X K Q i) = 1.
Proof.
  intros HN Hi. rewrite attention_weights_row.
  rewrite (proj2 (Nat.ltb_lt i NN)) by trivial.
  pose proof (masked_scores_sum_pos NN N X K Q i HN) as Hs. split.
  - intros j. pose proof (masked_scores_nonneg N X K Q i j).
    apply Rmult_le_pos; [trivial|]. apply Rlt_le, Rinv_0_lt_compat, Hs.
  - unfold Rdiv. rewrite sumn_R_scal_r. field. lra.
Qed.

Lemma attention_rows_sum_to_one_witness :
  (forall j, 0 <= attention_weights 21 1 (fun _ _ => 1) (fun _ _ => 0) (fun _ _ => 0) 3%nat j)
  /\ sumn 21 (attention_weights 21 1 (fun _ _ => 1) (fun _ _ => 0) (fun _ _ => 0) 3%nat) = 1.
Proof.
  apply (attention_rows_sum_to_one 21 1 (fun _ _ => 1) (fun _ _ => 0) (fun _ _ => 0) 3); lia.
Defined.

Lemma sigmoid_range (z : R) : 0 < 1 / (1 + exp z) < 1.
Proof.
  pose proof (exp_pos z) as He. split.
  - apply Rdiv_lt_0_compat; lra.
  - apply (Rmult_lt_reg_r (1 + exp z)); [lra|]. field_simplify; lra.
Qed.

(** X10. The highway layer is a convex combination: the transform gate lies
    strictly between 0 and 1, the carry gate is its complement, and every
    output unit lies between the transformed value and the carried
    input. *)
Theorem highway_is_convex (d : store R) (dense : vec R) (c : nat) :
  let g := transform_gate d dense c in
  let t := transformed_data d dense c in
  0 < g < 1
  /\ carry_gate d dense c = 1 - g
  /\ l_highway d dense c = g * t + (1 - g) * dense c
  /\ Rmin t (dense c) <= l_highway d dense c <= Rmax t (dense c).
Proof.
  cbv zeta.
  assert (Hg : 0 < transform_gate d dense c < 1).
  { unfold transform_gate, one. real_ops. apply sigmoid_range. }
  assert (Hc : carry_gate d dense c = 1 - transform_gate d dense c).
  { unfold carry_gate, one. real_ops. reflexivity. }
  assert (Hh : l_highway d dense c
               = transform_gate d dense c * transformed_data d dense c
                 + (1 - transform_gate d dense c) * dense c).
  { unfold l_highway, transformed_gated, identity_gated. rewrite Hc. real_ops.
    reflexivity. }
  repeat split; trivial; try apply Hg; rewrite Hh;
    set (g := transform_gate d dense c) in *;
    set (t := transformed_data d dense c);
    set (x := dense c).
  - unfold Rmin. destruct (Rle_dec t x); nra.
  - unfold Rmax. destruct (Rle_dec t x); nra.
Qed.

(** X11. For a classification model the output before the stored
    transform is a probability: the sigmoid of the last layer lies strictly
    between 0 and 1. *)
Theorem classification_output_range (d : store R) (info : info_t R)
    (highway : vec R) (c : nat) :
  info1 info = "classification"%string ->
  0 < l_out d info highway c < 1.
Proof.
  intros Hi. unfold l_out. rewrite Hi. cbv zeta.
  change (String.eqb "classification" "classification") with true.
  cbv iota. unfold one. real_ops. apply sigmoid_range.
Qed.

Lemma classification_output_range_witness :
  0 < l_out (store_const 1)
        {| info0 := "AMES"; info1 := "classification"; info2 := expr_result;
           info3 := "" |}
        (fun _ => 1 / 2) 0%nat < 1.
Proof.
  apply (classification_output_range (store_const 1)
           {| info0 := "AMES"; info1 := "classification"; info2 := expr_result;
              info3 := "" |} (fun _ => 1 / 2) 0).
  reflexivity.
Defined.

(** X12. Every entry of the positional encoding lies in [[-1, 1]]: it is a
    sine or a cosine in the rows of the string and the columns of the
    embedding, and zero elsewhere. *)
Theorem pos_bounded (N j i : nat) : -1 <= pos (A:=R) N j i <= 1.
Proof.
  rewrite pos_entry_at.
  destruct ((j <? N)%nat && (i <? EMBEDDING_SIZE)%nat).
  - unfold pos_entry. real_ops. destruct (Nat.even i).
    + apply SIN_bound.
    + apply COS_bound.
  - unfold zero. real_ops. lra.
Qed.

(* ================================================================= *)
(** * Further properties of the vocabulary *)

Lemma dict_get_build_notin (l : list ascii) (i : nat) (acc : dict) (ch : ascii) :
  ~ In ch l ->
  dict_get (fold_left (fun m p => dict_set m (snd p) (fst p)) (enumerate_from i l) acc) ch
  = dict_get acc ch.
Proof.
  revert i acc. induction l as [|a l IH]; intros i acc Hn; cbn [enumerate_from fold_left].
  - reflexivity.
  - rewrite IH by (intros Hin; apply Hn; now right).
    cbn [fst snd dict_set dict_get].
    destruct (Ascii.eqb_spec ch a) as [->|Hne]; [|reflexivity].
    exfalso. apply Hn. now left.
Qed.

Lemma dict_get_build_nth (l : list ascii) (i : nat) (acc : dict) (ch : ascii) (k : nat) :
  NoDup l -> nth_error l k = Some ch ->
  dict_get (fold_left (fun m p => dict_set m (snd p) (fst p)) (enumerate_from i l) acc) ch
  = Some (i + k)%nat.
Proof.
  revert i acc k. induction l as [|a l IH]; intros i acc k Hnd Hk.
  - destruct k; discriminate.
  - inversion Hnd as [|? ? Hna Hnd']; subst. cbn [enumerate_from fold_left].
    destruct k as [|k]; cbn [nth_error] in Hk.
    + injection Hk as ->. rewrite dict_get_build_notin by trivial.
      cbn [fst snd dict_set dict_get]. rewrite Ascii.eqb_refl. f_equal. lia.
    + rewrite (IH (S i) _ k Hnd' Hk). f_equal. lia.
Qed.

Lemma dict_get_build_Some (l : list ascii) (i : nat) (acc : dict) (ch : ascii) (v : nat) :
  dict_get (fold_left (fun m p => dict_set m (snd p) (fst p)) (enumerate_from i l) acc) ch
  = Some v ->
  ((i <= v)%nat /\ nth_error l (v - i) = Some ch) \/ dict_get acc ch = Some v.
Proof.
  revert i acc. induction l as [|a l IH]; intros i acc Hg; cbn [enumerate_from fold_left] in Hg.
  - now right.
  - destruct (IH _ _ Hg) as [[Hle Hn]|Hacc].
    + left. split; [lia|]. replace (v - i)%nat with (S (v - S i)) by lia. exact Hn.
    + cbn [fst snd dict_set dict_get] in Hacc.
      destruct (Ascii.eqb_spec ch a) as [->|Hne].
      * injection Hacc as <-. left. split; [lia|]. now rewrite Nat.sub_diag.
      * now right.
Qed.

Lemma chars_NoDup : NoDup (list_ascii_of_string chars).
Proof.
  unfold chars. cbn [list_ascii_of_string].
  repeat (apply NoDup_cons;
          [intros H; cbn [In] in H;
           repeat (destruct H as [H|H]; [discriminate H|]); exact H|]).
  apply NoDup_nil.
Qed.

Lemma char_to_ix_nth (c : ascii) (i : nat) :
  dict_get char_to_ix c = Some i <-> nth_error (list_ascii_of_string chars) i = Some c.
Proof.
  unfold char_to_ix. split.
  - intros Hg. apply dict_get_build_Some in Hg. cbn [dict_get] in Hg.
    destruct Hg as [[_ Hn]|Hn]; [|discriminate]. now rewrite Nat.sub_0_r in Hn.
  - intros Hn. now rewrite (dict_get_build_nth _ 0 [] c i chars_NoDup Hn).
Qed.

(** X13. The vocabulary is a bijection between its characters and their
    positions: [char_to_ix] maps a character to [i] exactly when it is the
    character at position [i] of [chars] (no character occurs twice), and
    then [i] is below the vocabulary size. *)
Theorem char_to_ix_round_trip (c : ascii) (i : nat) :
  (dict_get char_to_ix c = Some i <-> nth_error (list_ascii_of_string chars) i = Some c)
  /\ (dict_get char_to_ix c = Some i -> (i < vocab_size)%nat).
Proof.
  split; [apply char_to_ix_nth|].
  intros Hg. apply char_to_ix_nth in Hg.
  unfold vocab_size. rewrite <- length_list_ascii_of_string.
  apply nth_error_Some. congruence.
Qed.

Lemma fill_tokens_ok (mol : list ascii) (i : nat) (x : nat -> nat) :
  (forall c, In c mol -> In c (list_ascii_of_string chars)) ->
  exists x', fill_tokens mol i x = inr x'
             /\ forall k, (k < List.length mol)%nat ->
                  nth_error (list_ascii_of_string chars) (x' (i + k)%nat)
                  = nth_error mol k.
Proof.
  revert i x. induction mol as [|a mol IH]; intros i x Hv.
  - exists x. split; [reflexivity|]. cbn. lia.
  - cbn [fill_tokens].
    destruct (dict_get char_to_ix a) as [ix|] eqn:Ha.
    2:{ apply char_to_ix_None in Ha. exfalso. apply Ha, Hv. now left. }
    destruct (IH (S i) (fun k => if (k =? i)%nat then ix else x k))
      as (x' & Hf & Hx'); [intros c Hc; apply Hv; now right|].
    exists x'. split; [exact Hf|]. intros k Hk. destruct k as [|k].
    + rewrite Nat.add_0_r.
      rewrite (fill_tokens_frame _ _ _ _ i Hf) by lia.
      rewrite Nat.eqb_refl. cbn [nth_error]. now apply char_to_ix_nth.
    + replace (i + S k)%nat with (S i + k)%nat by lia. cbn [nth_error].
      apply Hx'. cbn [List.length] in Hk. lia.
Qed.

(** X14. For a string over the vocabulary the token loop succeeds, and
    every token index it writes is the position of the string's character
    in [chars], hence below the vocabulary size: looking the index up in
    [chars] gives the character back. *)
Theorem tokens_of_vocabulary (mol : string) :
  (forall c, In c (list_ascii_of_string mol) -> In c (list_ascii_of_string chars)) ->
  exists x, tokens mol = inr x
            /\ forall k, (k < String.length mol)%nat ->
                 (x k < vocab_size)%nat
                 /\ nth_error (list_ascii_of_string chars) (x k)
                    = nth_error (list_ascii_of_string mol) k.
Proof.
  intros Hv.
  destruct (fill_tokens_ok (list_ascii_of_string mol) 0 (fun _ => 0%nat) Hv)
    as (x & Hf & Hx).
  exists x. split; [exact Hf|]. intros k Hk.
  rewrite <- length_list_ascii_of_string in Hk.
  specialize (Hx k Hk). cbn [Nat.add] in Hx. split; [|exact Hx].
  unfold vocab_size. rewrite <- length_list_ascii_of_string.
  apply nth_error_Some. rewrite Hx. apply nth_error_Some. exact Hk.
Qed.

Lemma tokens_of_vocabulary_witness :
  exists x, tokens "CCO" = inr x
            /\ forall k, (k < String.length "CCO")%nat ->
                 (x k < vocab_size)%nat
                 /\ nth_error (list_ascii_of_string chars) (x k)
                    = nth_error (list_ascii_of_string "CCO") k.
Proof.
  apply (tokens_of_vocabulary "CCO").
  intros c Hc. cbn in Hc.
  destruct Hc as [<-|[<-|[<-|[]]]].
  all: match goal with
       | |- In ?c _ =>
           destruct (in_dec ascii_dec c (list_ascii_of_string chars)) as [Hin|Hout] eqn:E;
           [exact Hin|vm_compute in E; discriminate]
       end.
Defined.

(* ================================================================= *)
(** * Layer normalisation *)

Lemma np_mean_shift (n : nat) (v : vec R) (k : R) :
  (0 < n)%nat -> np_mean n (fun c => v c + k) = np_mean n v + k.
Proof.
  intros Hn. unfold np_mean. real_ops.
  rewrite sumn_R_plus, sumn_R_const, <- INR_IZR_INZ.
  field. apply not_0_INR. lia.
Qed.

Lemma np_std_shift (n : nat) (v : vec R) (k : R) :
  (0 < n)%nat -> np_std n (fun c => v c + k) = np_std n v.
Proof.
  intros Hn. unfold np_std. cbv zeta. rewrite np_mean_shift by exact Hn.
  real_ops. f_equal. unfold np_mean. f_equal.
  apply sumn_ext. intros i _. real_ops. ring.
Qed.

(** X15. Layer normalisation ignores a shift of a row: adding the same
    number [k i] to every entry of row [i] leaves the normalised output
    unchanged, whatever the gain and the bias. *)
Theorem layer_norm_shift_invariant (gamma beta : vec R) (l : mat R) (k : vec R) :
  layer_norm gamma beta (fun i c => l i c + k i) = layer_norm gamma beta l.
Proof.
  extensionality i. extensionality c. unfold layer_norm.
  assert (Hn : (0 < EMBEDDING_SIZE)%nat) by (unfold EMBEDDING_SIZE; lia).
  rewrite (np_mean_shift _ (l i) (k i) Hn), (np_std_shift _ (l i) (k i) Hn).
  real_ops. f_equal. f_equal. ring.
Qed.

(* ================================================================= *)
(** * The bars and colours of the plot *)

Lemma max_upto_ge (k : nat) (f : vec R) (i : nat) :
  (i <= k)%nat -> f i <= max_upto k f.
Proof.
  induction k as [|k IH]; intros Hi; cbn [max_upto].
  - assert (i = 0%nat) as -> by lia. lra.
  - rewrite np_max2_R. destruct (Rlt_dec (max_upto k f) (f (S k))) as [Hlt|Hge];
      (destruct (Nat.eq_dec i (S k)) as [->|Hne];
       [lra|specialize (IH ltac:(lia)); lra]).
Qed.

Lemma min_upto_le (k : nat) (f : vec R) (i : nat) :
  (i <= k)%nat -> min_upto k f <= f i.
Proof.
  induction k as [|k IH]; intros Hi; cbn [min_upto].
  - assert (i = 0%nat) as -> by lia. lra.
  - unfold np_min2. real_ops.
    destruct (Rlt_dec (f (S k)) (min_upto k f)) as [Hlt|Hge];
      (destruct (Nat.eq_dec i (S k)) as [->|Hne];
       [lra|specialize (IH ltac:(lia)); lra]).
Qed.

Lemma colour_of_valid (p : nat) (y_min y_max v : R) :
  y_min <= v <= y_max -> valid_colour (colour_of p y_min y_max v).
Proof.
  intros [Hlo Hhi]. unfold colour_of, lit_066, zero, one. real_ops.
  destruct (Rlt_dec (y_max / 10) v) as [H1|H1].
  - assert (Hpos : 0 < y_max) by lra.
    assert (Hr : 0 < v / y_max <= 1).
    { split.
      - apply Rdiv_lt_0_compat; lra.
      - apply (Rmult_le_reg_r y_max); [lra|].
        unfold Rdiv. rewrite Rmult_assoc, Rinv_l by lra. lra. }
    destruct (1 - p)%nat as [|[|[|q]]]; cbn [set_triple valid_colour];
      repeat split; lra.
  - destruct (Rlt_dec v (y_min / 10)) as [H2|H2].
    + assert (Hneg : y_min < 0) by lra.
      assert (Hr : 0 < v / y_min <= 1).
      { replace (v / y_min) with ((- v) / (- y_min)) by (field; lra). split.
        - apply Rdiv_lt_0_compat; lra.
        - apply (Rmult_le_reg_r (- y_min)); [lra|].
          unfold Rdiv. rewrite Rmult_assoc, Rinv_l by lra. lra. }
      destruct p as [|[|[|q]]]; cbn [set_triple valid_colour];
        repeat split; lra.
    + cbn [valid_colour]. repeat split; lra.
Qed.

Section PlotLoop.
Variable atoms : list string.
Variable impacts : vec R.
Variable p : nat.
Variables y_min y_max : R.

(** What the loop keeps: the counter stays an index of [atoms], the two
    lists grow together, and [mol_cols] only holds colours of atoms that
    were drawn. *)
Lemma plot_loop_invariant (toks : list string) (st : plot_state) :
  (k_atom st < List.length atoms)%nat ->
  exists st',
    plot_loop atoms impacts p y_min y_max toks st = Some st'
    /\ (k_atom st' < List.length atoms)%nat
    /\ List.length (y_vals st') = (List.length (y_vals st) + List.length toks)%nat
    /\ List.length (char_colors st') = (List.length (char_colors st) + List.length toks)%nat
    /\ (forall P : colour -> Prop,
          (forall k, (k < List.length atoms)%nat ->
                     P (colour_of p y_min y_max (impacts k))) ->
          P (0, 0, 0) ->
          (forall c, In c (char_colors st) -> P c) ->
          forall c, In c (char_colors st') -> P c)
    /\ (forall Q : nat -> colour -> Prop,
          (forall k, (k < List.length atoms)%nat ->
                     Q k (colour_of p y_min y_max (impacts k))) ->
          (forall j c, mol_cols st j = Some c -> Q j c) ->
          forall j c, mol_cols st' j = Some c -> Q j c).
Proof.
  revert st. induction toks as [|s rest IH]; intros st Hk.
  - exists st. cbn [plot_loop List.length]. repeat split; try lia; auto.
  - cbn [plot_loop]. unfold plot_step.
    destruct (nth_error atoms (k_atom st)) as [a|] eqn:Ha.
    2:{ apply nth_error_None in Ha. lia. }
    destruct (String.eqb s a).
    + cbv zeta.
      match goal with
      | |- context [plot_loop _ _ _ _ _ rest ?st1] =>
          destruct (IH st1) as (st' & Hl & Hk' & Hy & Hc & HP & HQ)
      end.
      { cbn [k_atom]. destruct (Nat.ltb_spec (k_atom st) (List.length atoms - 1)); lia. }
      exists st'. cbn [k_atom y_vals char_colors mol_cols] in *.
      rewrite length_app in Hy, Hc. cbn [List.length] in *.
      split; [exact Hl|]. split; [exact Hk'|].
      split; [lia|]. split; [lia|]. split.
      * intros P Hcol Hzero Hst c Hin. apply (HP P Hcol Hzero); [|exact Hin].
        intros c' Hc'. apply in_app_or in Hc'. destruct Hc' as [Hc'|[<-|[]]].
        -- now apply Hst.
        -- now apply Hcol.
      * intros Q Hcol Hst j c Hj. apply (HQ Q Hcol); [|exact Hj].
        intros j' c' Hj'. destruct (Nat.eqb_spec j' (k_atom st)) as [->|Hne].
        -- injection Hj' as <-. now apply Hcol.
        -- now apply Hst.
    + match goal with
      | |- context [plot_loop _ _ _ _ _ rest ?st1] =>
          destruct (IH st1) as (st' & Hl & Hk' & Hy & Hc & HP & HQ)
      end.
      { exact Hk. }
      exists st'. cbn [k_atom y_vals char_colors mol_cols] in *.
      rewrite length_app in Hy, Hc. cbn [List.length] in *.
      split; [exact Hl|]. split; [exact Hk'|].
      split; [lia|]. split; [lia|]. split.
      * intros P Hcol Hzero Hst c Hin. apply (HP P Hcol Hzero); [|exact Hin].
        intros c' Hc'. apply in_app_or in Hc'. destruct Hc' as [Hc'|[<-|[]]].
        -- now apply Hst.
        -- exact Hzero.
      * intros Q Hcol Hst j c Hj. now apply (HQ Q Hcol Hst).
Qed.

End PlotLoop.

(** X16. With at least one atom the plotting loop never fails on
    [atoms[k]]: it ends with one bar and one colour for every token, the
    atom counter is still an index of [atoms], and every key of [mol_cols]
    is an atom index. *)
Theorem plot_bars_aligned (info : info_t R) (atoms : list string) (impacts : vec R)
  (toks : list string) :
  atoms <> [] ->
  exists st,
    plot_bars info atoms impacts toks = Some st
    /\ List.length (y_vals st) = List.length toks
    /\ List.length (char_colors st) = List.length toks
    /\ (k_atom st < List.length atoms)%nat
    /\ (forall j c, mol_cols st j = Some c -> (j < List.length atoms)%nat).
Proof.
  intros Hne. unfold plot_bars. cbv zeta.
  destruct atoms as [|a0 atoms']; [congruence|].
  set (atoms0 := a0 :: atoms') in *.
  replace (List.length atoms0 =? 0)%nat with false by reflexivity.
  match goal with
  | |- context [plot_loop atoms0 impacts ?p ?lo ?hi toks ?st0] =>
      destruct (plot_loop_invariant atoms0 impacts p lo hi toks st0)
        as (st & Hl & Hk & Hy & Hc & _ & HQ)
  end.
  { cbn. lia. }
  exists st. cbn [y_vals char_colors List.length Nat.add] in *.
  split; [exact Hl|]. split; [exact Hy|]. split; [exact Hc|]. split; [exact Hk|].
  intros j c Hj.
  apply (HQ (fun j _ => (j < List.length atoms0)%nat)) with (c := c); auto.
  cbn [mol_cols]. discriminate.
Qed.

Lemma plot_bars_aligned_witness :
  exists st,
    plot_bars (A:=R) (info_with expr_result) ["C"; "O"]%string
      (fun i => INR i) ["C"; "("; "O"; ")"]%string = Some st
    /\ List.length (y_vals st) = 4%nat
    /\ List.length (char_colors st) = 4%nat
    /\ (k_atom st < 2)%nat
    /\ (forall j c, mol_cols st j = Some c -> (j < 2)%nat).
Proof.
  apply (plot_bars_aligned (info_with expr_result) ["C"; "O"]%string
           (fun i => INR i) ["C"; "("; "O"; ")"]%string).
  discriminate.
Defined.

(** X17. Every colour the plotting loop produces is a valid RGB triple:
    each component of each entry of [char_colors] and of [mol_cols] lies
    between 0 and 1, because an impact above a tenth of the maximum (below
    a tenth of the minimum) has the sign of that extremum and is at most as
    large. *)
Theorem plot_colours_valid (info : info_t R) (atoms : list string) (impacts : vec R)
  (toks : list string) (st : plot_state) :
  plot_bars info atoms impacts toks = Some st ->
  (forall c, In c (char_colors st) -> valid_colour c)
  /\ (forall j c, mol_cols st j = Some c -> valid_colour c).
Proof.
  unfold plot_bars. cbv zeta.
  destruct (Nat.eqb_spec (List.length atoms) 0) as [|Hn]; [discriminate|].
  intros Hrun.
  match type of Hrun with
  | plot_loop atoms impacts ?p ?lo ?hi toks ?st0 = _ =>
      destruct (plot_loop_invariant atoms impacts p lo hi toks st0)
        as (st' & Hl & _ & _ & _ & HP & HQ);
      [cbn; lia|];
      assert (Hcol : forall k, (k < List.length atoms)%nat ->
                valid_colour (colour_of p lo hi (impacts k)))
  end.
  { intros k Hk. apply colour_of_valid. split.
    - apply min_upto_le. lia.
    - apply max_upto_ge. lia. }
  rewrite Hl in Hrun. injection Hrun as <-. split.
  - apply (HP valid_colour Hcol).
    + cbn. lra.
    + cbn [char_colors In]. tauto.
  - apply (HQ (fun _ c => valid_colour c) Hcol). cbn [mol_cols]. discriminate.
Qed.

Lemma plot_colours_valid_witness :
  exists st,
    plot_bars (A:=R) (info_with expr_result) ["C"; "O"]%string
      (fun i => INR i) ["C"; "("; "O"; ")"]%string = Some st
    /\ (forall c, In c (char_colors st) -> valid_colour c)
    /\ (forall j c, mol_cols st j = Some c -> valid_colour c).
Proof.
  destruct (plot_loop_invariant ["C"; "O"]%string (fun i => INR i) 0
              (min_upto 1 (fun i => INR i)) (max_upto 1 (fun i => INR i))
              ["C"; "("; "O"; ")"]%string
              {| k_atom := 0; y_vals := []; char_colors := [];
                 mol_cols := fun _ => None |})
    as (st & Hrun & _); [cbn; lia|].
  exists st. split; [exact Hrun|].
  apply (plot_colours_valid (info_with expr_result) ["C"; "O"]%string
           (fun i => INR i) ["C"; "("; "O"; ")"]%string st).
  exact Hrun.
Defined.

(* ================================================================= *)
(** * Conservation of relevance (C1) *)

Lemma sumn_R_minus (n : nat) (f g : vec R) :
  sumn n (fun i => f i - g i) = sumn n f - sumn n g.
Proof.
  induction n as [|n IH]; cbn [sumn]; real_ops; unfold zero; real_ops.
  - lra.
  - rewrite IH. lra.
Qed.

(** What the two dense rules pass on: the relevance they receive less the
    share of the bias. *)
Lemma dense_out_sum_share (p : nat) (l_previous : vec R) (w0 : mat R)
    (w1 l_next : vec R) :
  out_z p l_previous w0 w1 <> 0 ->
  sumn p (calcLRPDenseOut p l_previous w0 w1 l_next)
  = l_next 0%nat - bias_share_out p l_previous w0 w1 l_next.
Proof.
  unfold bias_share_out, out_z. intros Hz.
  unfold calcLRPDenseOut. cbv zeta. cbn [sumn]. unfold zero. real_ops.
  set (T := sumn p (fun k => w0 k 0%nat * l_previous k)) in *.
  rewrite (sumn_ext _ _ (fun k => (w0 k 0%nat * l_previous k)
                                  * (l_next 0%nat / (T + w1 0%nat))))
    by (intros k _; field; exact Hz).
  rewrite sumn_R_scal_r. fold T. field. exact Hz.
Qed.

Lemma dense_inner_sum_share (p m : nat) (l_previous : vec R) (w0 : mat R)
    (w1 l_next : vec R) :
  (forall j, (j < m)%nat -> inner_z p l_previous w0 w1 j <> 0) ->
  sumn p (calcLRPDenseInner p m l_previous w0 w1 l_next)
  = sumn m l_next - bias_share p m l_previous w0 w1 l_next.
Proof.
  intros Hz. unfold calcLRPDenseInner, bias_share. cbv zeta. real_ops.
  rewrite sumn_R_exchange, <- sumn_R_minus. apply sumn_ext. intros j Hj.
  specialize (Hz j Hj). unfold inner_z in *.
  set (S := sumn p (fun k => l_previous k * w0 k j)) in *.
  rewrite sumn_R_scal_l. unfold Rdiv. rewrite sumn_R_scal_r. fold S.
  field. exact Hz.
Qed.

(** The convolution of width 1 passes on what it receives less the bias
    shares of its rows. *)
Lemma conv1_sum_share (n p m : nat) (l_prev : mat R) (w0 : mat R) (w1 : vec R)
    (l_out : mat R) :
  (forall i j, (i < n)%nat -> (j < m)%nat -> inner_z p (l_prev i) w0 w1 j <> 0) ->
  sum2 n p (calcLRPConv n p m l_prev w0 w1 l_out)
  = sum2 n m l_out - sumn n (fun i => bias_share p m (l_prev i) w0 w1 (l_out i)).
Proof.
  intros Hz. unfold sum2. rewrite <- sumn_R_minus. apply sumn_ext. intros i Hi.
  rewrite calcLRPConv_row, (proj2 (Nat.ltb_lt i n)) by trivial.
  apply dense_inner_sum_share. intros j Hj. now apply Hz.
Qed.

(** The two shares of the additive merge add up, in sum as at every
    position. *)
Lemma addition_sum (d : store R) (dense R_hw : vec R) (n : nat) :
  sumn n (R_identity d dense R_hw) + sumn n (R_transformed_gated d dense R_hw)
  = sumn n R_hw.
Proof.
  rewrite <- sumn_R_plus. apply sumn_ext. intros i _.
  unfold R_identity, R_transformed_gated, calcLRPAddition. cbn [fst snd].
  real_ops. lra.
Qed.

(** C1 (amended). In real arithmetic, for a string over the vocabulary
    that is not empty, when no relevance rule divides by zero, [calcQSAR]
    returns its triple, the relevance vector sums to the reported score
    less the residual that is its third component, and that residual is
    the relevance the four dense rules hand to the bias (and the
    stabiliser): the additive merge, the de-pooling and the strided
    convolutions pass the relevance on in full, so the relevance is
    conserved up to these bias shares and not up to a tolerance. *)
Theorem residual_is_bias_share (d : store R) (info : info_t R) (mol : string)
    (MolWt : R) (x : nat -> nat) (y : R) :
  mol <> ""%string ->
  tokens mol = inr x ->
  info2 info
    (Build_scope d mol MolWt
       (forward_result d info (String.length mol + CONV_OFFSET) (String.length mol) x))
  = EvalValue y ->
  rules_defined d info mol x y ->
  exists scores delta,
    calcQSAR d info mol MolWt true = Explained y scores delta
    /\ sumn (String.length mol + CONV_OFFSET) scores = y - delta
    /\ delta = bias_shares d info mol x y.
Proof.
  intros Hmol Hx Hy Hdef. unfold forward_result in Hy. cbv zeta in Hy.
  unfold calcQSAR. rewrite Hx. cbv zeta. rewrite Hy. cbn [negb].
  rewrite explain_R. cbv zeta. rewrite upd_same.
  eexists. eexists. split; [reflexivity|].
  unfold rules_defined in Hdef. unfold bias_shares. cbv zeta in Hdef |- *.
  set (NN := (String.length mol + CONV_OFFSET)%nat) in *.
  set (l_embed := encoder d NN (String.length mol) x) in *.
  set (cnn := l_cnn d NN l_embed) in *.
  set (dense := l_dense d cnn) in *.
  set (highway := l_highway d dense) in *.
  set (out := upd (l_out d info highway) 0 y) in *.
  set (R_hw := R_highway d highway out) in *.
  set (R_in := R_input_highway d dense R_hw) in *.
  set (R := R_cnn_flat d cnn R_in) in *.
  destruct Hdef as (Hout & Hhw & Hcnn & Hc1 & Hstr).
  assert (HNN : (0 < NN)%nat) by (unfold NN, CONV_OFFSET; lia).
  (* the strided convolutions and the convolution of width 1 *)
  assert (Hall : sum2 NN EMBEDDING_SIZE (R_cnn d NN l_embed R)
                 = sumn CNN_WIDTH R
                   - sumn NN (fun i => bias_share EMBEDDING_SIZE 100 (l_embed i)
                                         (dmat d 121) (dvec d 122)
                                         (d_1 d NN l_embed R i))).
  { unfold R_cnn. rewrite sum2_fold_plus.
    rewrite (fold_right_plus_ext conv_strided _
               (fun s => sum2 NN (channels s) (d_k d NN l_embed R s))).
    2:{ intros s Hs. unfold R_cnn_k. apply conv_stride_rescale_sum.
        now apply Hstr. }
    unfold R_cnn_1. rewrite conv1_sum_share by exact Hc1.
    rewrite <- (demaxpool_sum d NN l_embed R HNN). lra. }
  (* the fusion layer *)
  assert (HR : sumn CNN_WIDTH R
               = sumn N_HIDDEN_CNN R_in
                 - bias_share CNN_WIDTH N_HIDDEN_CNN cnn (dmat d 145) (dvec d 146) R_in).
  { unfold R, R_cnn_flat. now apply dense_inner_sum_share. }
  (* the highway *)
  assert (Hin : sumn N_HIDDEN_CNN R_in
                = sumn N_HIDDEN_CNN R_hw
                  - bias_share N_HIDDEN_CNN N_HIDDEN_CNN dense (dmat d 149) (dvec d 150)
                      (R_transformed_gated d dense R_hw)).
  { unfold R_in, R_input_highway. real_ops. rewrite sumn_R_plus.
    unfold R_dense_high3. rewrite dense_inner_sum_share by exact Hhw.
    pose proof (addition_sum d dense R_hw N_HIDDEN_CNN). lra. }
  (* the output layer *)
  assert (Hhwsum : sumn N_HIDDEN_CNN R_hw
                   = y - bias_share_out N_HIDDEN_CNN highway (dmat d 151) (dvec d 152) out).
  { unfold R_hw, R_highway. rewrite dense_out_sum_share by exact Hout.
    unfold out at 1. now rewrite upd_same. }
  change (sumn NN (fun i => sumn EMBEDDING_SIZE (R_cnn d NN l_embed R i)))
    with (sum2 NN EMBEDDING_SIZE (R_cnn d NN l_embed R)).
  assert (Hout0 : out 0%nat = y) by (unfold out; apply upd_same).
  cbn [sumn]. rewrite Hout0. unfold zero. real_ops.
  rewrite Hall, HR, Hin, Hhwsum. split; lra.
Qed.

(** On the constant store with output bias 1 no rule of the pass over "CC"
    divides by zero. *)
Lemma store_const_rules_defined (x : nat -> nat) :
  rules_defined (store_const 1) (info_with expr_result) "CC" x 2.
Proof.
  unfold rules_defined. cbv zeta.
  change (String.length "CC" + CONV_OFFSET)%nat with 22%nat.
  rewrite store_const_encoder.
  assert (Hcnn : forall j, (j < CNN_WIDTH)%nat ->
            l_cnn (store_const 1) 22 (fun _ _ => 1) j = 1).
  { intros j Hj. rewrite store_const_l_cnn by lia.
    now rewrite (proj2 (Nat.ltb_lt j CNN_WIDTH)). }
  rewrite (store_const_l_dense 1 _ Hcnn).
  destruct (store_const_highway 1) as (_ & _ & Hh). rewrite Hh.
  rewrite store_const_l_out.
  pose proof eps32_pos as He.
  split; [|split; [|split; [|split]]].
  - unfold out_z.
    change (dmat (store_const 1) 151) with (fun (_ _ : nat) => 2 / INR N_HIDDEN_CNN).
    change (dvec (store_const 1) 152 0%nat) with 1.
    rewrite (sumn_ext _ _ (fun _ => 1 / INR N_HIDDEN_CNN))
      by (intros; field; apply not_0_INR; unfold N_HIDDEN_CNN; lia).
    rewrite sumn_R_const_inv by (unfold N_HIDDEN_CNN; lia). lra.
  - intros j _. unfold inner_z.
    change (dmat (store_const 1) 149) with (fun (_ _ : nat) => 0).
    change (dvec (store_const 1) 150 j) with 0.
    rewrite sumn_R_mult_0_r. lra.
  - intros j _. unfold inner_z.
    change (dmat (store_const 1) 145) with (fun (_ _ : nat) => 1 / INR CNN_WIDTH).
    change (dvec (store_const 1) 146 j) with 0.
    cbv beta. rewrite dot_l_cnn_const by exact Hcnn. lra.
  - intros i j _ _. unfold inner_z.
    change (dmat (store_const 1) 121) with (fun (_ _ : nat) => 1 / INR EMBEDDING_SIZE).
    change (dvec (store_const 1) 122 j) with 0.
    rewrite (sumn_ext _ _ (fun _ => 1 / INR EMBEDDING_SIZE)) by (intros; lra).
    rewrite sumn_R_const_inv by (unfold EMBEDDING_SIZE; lia). lra.
  - intros s Hs. split.
    + intros i j _ _. unfold inner_z, window, reshape_kernel, dvec.
      destruct (store_const_kernel 1 s Hs) as [Hk Hb]. rewrite Hk, Hb.
      rewrite (sumn_ext _ _ (fun _ => 1 / INR (width s * EMBEDDING_SIZE)))
        by (intros; lra).
      rewrite sumn_R_const_inv
        by (pose proof (conv_strided_width s Hs); unfold EMBEDDING_SIZE; lia).
      lra.
    + rewrite store_const_R_highway by (unfold upd; cbn [Nat.eqb]; lra).
      rewrite store_const_R_input_highway.
      match goal with
      | |- context [d_k _ _ _ ?R s] =>
          assert (HR : forall p, (p < CNN_WIDTH)%nat -> R p = rho)
            by (intros p Hp; now apply store_const_R_cnn_flat);
          rewrite (store_const_loop_sum 1 22 R ltac:(lia) HR s Hs)
      end.
      pose proof (rho_pos 22 ltac:(lia)).
      assert (0 < INR (channels s)).
      { apply lt_0_INR. revert s Hs. each_conv; cbn; lia. }
      apply Rgt_not_eq. apply Rdiv_lt_0_compat; [|lra].
      now apply Rmult_lt_0_compat.
Qed.

Lemma residual_is_bias_share_witness :
  exists scores delta,
    calcQSAR (store_const 1) (info_with expr_result) "CC" 30 true
    = Explained 2 scores delta
    /\ sumn (String.length "CC" + CONV_OFFSET) scores = 2 - delta
    /\ delta
       = bias_shares (store_const 1) (info_with expr_result) "CC"
           (fun k => if (k =? 1)%nat then 24%nat else if (k =? 0)%nat then 24%nat else 0%nat)
           2.
Proof.
  apply (residual_is_bias_share (store_const 1) (info_with expr_result) "CC" 30
           (fun k => if (k =? 1)%nat then 24%nat else if (k =? 0)%nat then 24%nat else 0%nat)
           2).
  - discriminate.
  - reflexivity.
  - change (String.length "CC") with 2%nat.
    rewrite store_const_forward_result.
    cbn [info_with info2]. unfold expr_result. cbn [sc_result]. f_equal; lra.
  - apply store_const_rules_defined.
Defined.

(** C1 (as stated) fails: on the constant store with output bias 1 no rule
    of the pass over "CC" divides by zero, the score is 2, and the
    relevance vector sums to less than 1: the output layer hands half of
    the score to its bias. *)
Lemma relevance_not_conserved :
  rules_defined (store_const 1) (info_with expr_result) "CC"
    (fun k => if (k =? 1)%nat then 24%nat else if (k =? 0)%nat then 24%nat else 0%nat) 2
  /\ exists scores delta,
       calcQSAR (store_const 1) (info_with expr_result) "CC" 30 true
       = Explained 2 scores delta
       /\ sumn 22 scores <= 1
       /\ ~ (Rabs (sumn 22 scores - 2) <= 1 / 10000 * Rabs 2).
Proof.
  split; [apply store_const_rules_defined|].
  destruct (store_const_explained
              (fun k => if (k =? 1)%nat then 24%nat else if (k =? 0)%nat then 24%nat else 0%nat)
              eq_refl) as (scores & delta & Hq & Hsum).
  exists scores, delta. pose proof relevance_total_below_one as Hle.
  rewrite <- Hsum in Hle. repeat split; trivial.
  intros Habs. rewrite Rabs_left in Habs by lra.
  rewrite (Rabs_right 2) in Habs by lra. lra.
Qed.

(* ================================================================= *)
(** * The rescale of the strided convolution *)

(** X18. In real arithmetic, when the relevance accumulated by the loop of
    [calcLRPConvStride] has a sum [s] that is not zero, the rescaled result
    sums to the sum of the incoming relevance [l_out], also of the rows of
    [l_out] that the loop never read. *)
Theorem calcLRPConvStride_renormalised (n c n_out m : nat) (l_prev : mat R)
    (w0 : ten3 R) (w1 : vec R) (l_out : mat R) (stride : nat) :
  sum2 n c (conv_stride_loop n c m l_prev w0 w1 l_out stride) <> 0 ->
  sum2 n c (calcLRPConvStride n c n_out m l_prev w0 w1 l_out stride)
  = sum2 n_out m l_out.
Proof. apply conv_stride_rescale_sum. Qed.

Lemma calcLRPConvStride_renormalised_witness :
  sum2 4 1 (calcLRPConvStride 4 1 4 1 toy_ones toy_kernel toy_bias (toy_rel_below 2) 2)
  = sum2 4 1 (toy_rel_below (A:=R) 2).
Proof.
  apply (calcLRPConvStride_renormalised 4 1 4 1 toy_ones toy_kernel toy_bias
           (toy_rel_below 2) 2).
  unfold_toy. cbn. lra.
Defined.

(* ================================================================= *)
(** * Strings of one character *)

Lemma first_exit_In (cs : list (option string)) (l : string) :
  In (Some l) cs -> exists l', first_exit cs = Some l'.
Proof.
  induction cs as [|[l0|] cs IH]; intros Hin; cbn [first_exit].
  - destruct Hin.
  - now exists l0.
  - destruct Hin as [Hc|Hin]; [discriminate|]. now apply IH.
Qed.

(** X19. A string of one character of the vocabulary never gets its
    relevance: with [NN = 21] the loop of the width-20 convolution rule is
    empty, its rescale is [0.0 / 0.0], and so, whatever the weights, a call
    with the LRP pass ends in the exit of an [LRPCheck] (that of "Conv20:"
    at the latest), unless the stored expression has raised before. *)
Theorem one_character_smiles_exits (d : store xreal) (info : info_t xreal)
    (ch : ascii) (MolWt : xreal) :
  In ch (list_ascii_of_string chars) ->
  (exists lbl, calcQSAR d info (String ch "") MolWt true = NaNExit lbl)
  \/ (exists exc, calcQSAR d info (String ch "") MolWt true = EvalError exc).
Proof.
  intros Hch.
  destruct (fill_tokens_ok [ch] 0 (fun _ => 0%nat)) as (x & Hx & _).
  { intros c [<-|[]]. exact Hch. }
  unfold calcQSAR, tokens. cbn [list_ascii_of_string]. rewrite Hx. cbv zeta.
  destruct (info2 info _) as [y|exc]; [left|right; now exists exc].
  cbn [negb]. unfold explain. cbv zeta.
  match goal with
  | |- context [first_exit ?cs] =>
      destruct (first_exit_In cs "  Conv20:") as (lbl & Hl)
  end.
  - apply in_or_app. right. apply in_or_app. left.
    apply in_map_iff. exists conv_20. split.
    + unfold R_cnn_k. cbn [String.length].
      change (1 + CONV_OFFSET)%nat with 21%nat.
      unfold sum2. rewrite xsumn_nan; [reflexivity|lia|].
      intros i _. apply xsumn_nan; [unfold EMBEDDING_SIZE; lia|].
      intros k _. apply conv_stride_empty_nan. cbn. lia.
    + cbn. tauto.
  - exists lbl. now rewrite Hl.
Qed.

Lemma one_character_smiles_exits_witness :
  (exists lbl, calcQSAR (fun _ _ _ _ => Fin 1) (info_with expr_result) "C" (Fin 16) true
               = NaNExit lbl)
  \/ (exists exc, calcQSAR (fun _ _ _ _ => Fin 1) (info_with expr_result) "C" (Fin 16) true
                  = EvalError exc).
Proof.
  apply (one_character_smiles_exits (fun _ _ _ _ => Fin 1) (info_with expr_result)
           "C"%char (Fin 16)).
  cbn. do 24 right. left. reflexivity.
Defined.
